(** * Ensemble training loop of [ensenble_train.py]

    A shallow embedding of the ensemble trainer: the five-slot epoch loop of
    [train] with its metric windows, validation pass, best/last checkpoints
    and early-stop exit, the helper [grid_image] with its assertion, and the
    run-directory helper [increment_path].

    Python floats are IEEE binary64 values ([spec_float] at precision 53),
    Python ints are [Z], exceptions are an explicit error type, and every
    call of a collaborator that acts on the models or leaves the process
    (mode switches, forward passes, optimizer steps, logger calls,
    checkpoint writes, early-stop calls) is an event of a trace.  The
    collaborators that are imported by the script (models, datasets, the
    criterion, numpy, sklearn, the early-stop class, the random generator)
    are fields of one record of oracles. *)

From Stdlib Require Import ZArith List Bool Lia String Ascii.
From Stdlib Require Import Floats.SpecFloat.
From Stdlib Require Import QArith Qcanon.
From Stdlib Require Import DecimalString DecimalN.
From stdpp Require Import base list gmap sorting.

Open Scope Z_scope.

(* ===================================================================== *)
(** ** Python floats *)
(* ===================================================================== *)

Module Float.

Definition prec : Z := 53.
Definition emax : Z := 1024.

Definition float := spec_float.

(** [float(z)] for a Python int [z] (round to nearest even; exact for
    [|z| <= 2^53], which covers every count of this program). *)
Definition of_int (z : Z) : float := binary_normalize prec emax z 0 false.

(** The int [0] the accumulators start from, read as a float. *)
Definition zero : float := S754_zero false.

(** [np.inf] *)
Definition inf : float := S754_infinity false.

Definition add : float -> float -> float := SFadd prec emax.
Definition div : float -> float -> float := SFdiv prec emax.

(** [a < b] and [a <= b]; false as soon as one side is NaN. *)
Definition ltb : float -> float -> bool := SFltb.
Definition leb : float -> float -> bool := SFleb.

Definition is_nan (x : float) : bool :=
  match x with S754_nan => true | _ => false end.

(** Builtin [max(a, b)]: keeps [a] unless [b > a]. *)
Definition py_max (a b : float) : float := if ltb a b then b else a.

(** Builtin [min(a, b)]: keeps [a] unless [b < a]. *)
Definition py_min (a b : float) : float := if ltb b a then b else a.

(** The decimal literal [n/10], e.g. [tenths 3] is [0.3]. *)
Definition tenths (n : Z) : float := div (of_int n) (of_int 10).

End Float.

Abbreviation float := Float.float.

(* ===================================================================== *)
(** ** Exceptions, events and the trace monad *)
(* ===================================================================== *)

Inductive exn :=
| AssertionError
| ZeroDivisionError
| ValueError
| IndexError
| TypeError
| ReError.          (* re.error *)

Inductive result (A : Type) :=
| Ok (a : A)
| Raise (e : exn).
Arguments Ok {A} a.
Arguments Raise {A} e.

(** One subplot of the figure of [grid_image]: ground truth and prediction. *)
Definition Figure := list (Z * Z).

Inductive ckpt_kind := Best | Last.

(** What the run does to its models and to the outside world.  The epoch
    and slot carried by a call are the values of the loop variables
    [epoch] and [i] at the call, and [idx] is the position of the batch in
    its loader. *)
Inductive event :=
| ModelTrain (epoch i : nat)                    (* models[i].train() *)
| ModelForward (epoch i idx : nat)              (* models[i](inputs) *)
| OptimizerStep (epoch i idx : nat)             (* optimizers[i].step() *)
| AddScalar (tag : string) (value : float) (step : Z)
| ModelEval (epoch i : nat)                     (* models[i].eval() *)
| TorchSave (epoch i : nat) (kind : ckpt_kind)  (* model{i}_{best,last}.pth *)
| AddFigure (fig : option Figure) (step : Z)
| EarlyStoppingCall (epoch i : nat) (val_loss : float).

(** A computation emits events and then returns or raises; the events
    emitted before an exception stay in the trace. *)
Definition M (A : Type) : Type := (list event * result A)%type.

Definition ret {A} (a : A) : M A := ([], Ok a).
Definition raise {A} (e : exn) : M A := ([], Raise e).
Definition emit (ev : event) : M unit := ([ev], Ok tt).

Definition bind {A B} (m : M A) (k : A -> M B) : M B :=
  match m with
  | (t, Raise e) => (t, Raise e)
  | (t, Ok a) => let '(t', r) := k a in (t ++ t', r)
  end.

Notation "x <- c ;; k" := (bind c (fun x => k))
  (at level 100, c at next level, right associativity).
Notation "c ;;; k" := (bind c (fun _ => k))
  (at level 100, right associativity).

Definition trace_of {A} (m : M A) : list event := fst m.
Definition outcome {A} (m : M A) : result A := snd m.

(** [assert b] *)
Definition py_assert (b : bool) : M unit :=
  if b then ret tt else raise AssertionError.

(** [l[i]] *)
Definition getitem {A} (l : list A) (i : nat) : M A :=
  match l !! i with
  | Some x => ret x
  | None => raise IndexError
  end.

(** [l[i] = v] *)
Definition setitem {A} (l : list A) (i : nat) (v : A) : M (list A) :=
  if (i <? length l)%nat then ret (<[i:=v]> l) else raise IndexError.

(** [x / n] for a Python float (or int read as a float) [x] and a Python
    int [n]: the int is converted and the quotient is a float. *)
Definition py_truediv (x : float) (n : Z) : M float :=
  if n =? 0 then raise ZeroDivisionError
  else ret (Float.div x (Float.of_int n)).

(** [a / b] on Python ints. *)
Definition py_int_truediv (a b : Z) : M float :=
  py_truediv (Float.of_int a) b.

(** [a % b] on Python ints (the sign follows the divisor, as [Z.modulo]). *)
Definition py_mod (a b : Z) : M Z :=
  if b =? 0 then raise ZeroDivisionError else ret (a mod b).

(* ===================================================================== *)
(** ** Data loaders *)
(* ===================================================================== *)

(** Modelled from the spec: [torch.utils.data.DataLoader] is imported, not
    part of the script.  A loader groups the sample positions of its
    sampler into batches of [batch_size]; with the drop-last policy a
    trailing partial batch is discarded.  A batch is the list of the
    positions it holds. *)
Record DataLoader := {
  dl_size : nat;          (* len(dataset) *)
  dl_batch_size : nat;
  dl_drop_last : bool
}.

(** Construction refuses a non-positive batch size. *)
Definition new_DataLoader (size : nat) (batch_size : Z) (drop_last : bool)
  : M DataLoader :=
  if batch_size <=? 0 then raise ValueError
  else ret {| dl_size := size; dl_batch_size := Z.to_nat batch_size;
              dl_drop_last := drop_last |}.

(** The batch sampler: append to the current batch, yield it when it is
    full, and yield a trailing partial batch only without drop-last.
    [cur] is the current batch, most recent position first. *)
Fixpoint batch_sampler (bs : nat) (drop_last : bool)
    (sampler : list nat) (cur : list nat) : list (list nat) :=
  match sampler with
  | [] =>
      match cur with
      | [] => []
      | _ :: _ => if drop_last then [] else [rev cur]
      end
  | x :: rest =>
      let cur' := x :: cur in
      if (length cur' =? bs)%nat
      then rev cur' :: batch_sampler bs drop_last rest []
      else batch_sampler bs drop_last rest cur'
  end.

(** [iter(loader)] *)
Definition batches (dl : DataLoader) : list (list nat) :=
  batch_sampler (dl_batch_size dl) (dl_drop_last dl) (seq 0 (dl_size dl)) [].

(** [len(loader)] *)
Definition loader_len (dl : DataLoader) : nat :=
  if dl_drop_last dl
  then (dl_size dl / dl_batch_size dl)%nat
  else ((dl_size dl + dl_batch_size dl - 1) / dl_batch_size dl)%nat.

(* ===================================================================== *)
(** ** Collaborators and arguments *)
(* ===================================================================== *)

(** What a model and the criterion return on one batch. *)
Record batch_out := {
  labels : list Z;
  preds : list Z;     (* torch.argmax(outs, dim=-1) *)
  loss : float        (* criterion(outs, labels).item() *)
}.

Record Collaborators := {
  (** sizes of [train_set] and [val_set] of slot [i] *)
  train_set_len : nat -> nat;
  val_set_len : nat -> nat;
  (** forward pass of [models[i]] in epoch [epoch] on batch [idx] *)
  forward_train : nat -> nat -> nat -> list nat -> batch_out;
  forward_val : nat -> nat -> nat -> list nat -> batch_out;
  (** [sklearn.metrics.f1_score(a, b, average='macro')] *)
  f1_score : list Z -> list Z -> float;
  (** [np.sum] of a list of floats *)
  np_sum : list float -> float;
  (** truth value of [EarlyStopping()(val_loss, models[i])] *)
  early_stopping : nat -> nat -> float -> bool;
  (** [random.choices(range(batch_size), k=n)] in epoch [epoch], slot [i] *)
  random_choices : nat -> nat -> nat -> nat -> list nat
}.

Record Args := {
  epochs : Z;
  dataset : string;
  batch_size : Z;
  valid_batch_size : Z;
  log_interval : Z
}.

(* ===================================================================== *)
(** ** [grid_image] *)
(* ===================================================================== *)

Fixpoint subplots (gts preds : list Z) (choices : list nat) : M Figure :=
  match choices with
  | [] => ret []
  | choice :: rest =>
      gt <- getitem gts choice ;;
      pred <- getitem preds choice ;;
      fig <- subplots gts preds rest ;;
      ret ((gt, pred) :: fig)
  end.

(** [grid_image(np_images, gts, preds, n, shuffle)]; [batch_size] is
    [np_images.shape[0]] and [choices_rnd] is what [random.choices] returns
    at this call. *)
Definition grid_image (choices_rnd : nat -> nat -> list nat)
    (batch_size : nat) (gts preds : list Z) (n : nat) (shuffle : bool)
  : M Figure :=
  py_assert (n <=? batch_size)%nat ;;;
  let choices := if shuffle then choices_rnd batch_size n else seq 0 n in
  subplots gts preds choices.

(* ===================================================================== *)
(** ** The body of [train] *)
(* ===================================================================== *)

(** [(preds == labels).sum().item()] *)
Fixpoint count_matches (ps ls : list Z) : Z :=
  match ps, ls with
  | p :: ps', l :: ls' => (if p =? l then 1 else 0) + count_matches ps' ls'
  | _, _ => 0
  end.

(** The running sums of the training loop. *)
Record train_sums := {
  loss_value : float;
  matches : Z;
  temp_loss_value : float;
  temp_matches : Z;
  y_true : list Z;
  y_pred : list Z
}.

Definition train_sums_init : train_sums :=
  {| loss_value := Float.zero; matches := 0;
     temp_loss_value := Float.zero; temp_matches := 0;
     y_true := []; y_pred := [] |}.

(** The state of the validation loop. *)
Record val_sums := {
  val_loss_items : list float;
  val_acc_items : list Z;
  figure : option Figure;
  val_y_true : list Z;
  val_y_pred : list Z
}.

Definition val_sums_init : val_sums :=
  {| val_loss_items := []; val_acc_items := []; figure := None;
     val_y_true := []; val_y_pred := [] |}.

Record train_metrics := {
  train_loss : float;
  train_acc : float;
  train_f1 : float
}.

Record val_metrics := {
  val_figure : option Figure;
  val_loss : float;
  val_acc : float;
  val_f1 : float
}.

(** The three lists of best values, one entry per slot. *)
Record best_state := {
  best_val_accs : list float;
  best_val_losses : list float;
  best_f1_scores : list float
}.

Definition best_state_init : best_state :=
  {| best_val_accs := replicate 5 Float.zero;
     best_val_losses := replicate 5 Float.inf;
     best_f1_scores := replicate 5 Float.zero |}.

Definition sum_Z (l : list Z) : Z := fold_left Z.add l 0.

Section Train.

Variable W : Collaborators.
Variable args : Args.

(** One pass of the [if (idx + 1) % args.log_interval == 0] block. *)
Definition flush_window (epoch : nat) (train_loader : DataLoader)
    (idx : nat) (s : train_sums) : M train_sums :=
  r <- py_mod (Z.of_nat idx + 1) (log_interval args) ;;
  if r =? 0 then
    temp_train_loss <-
      py_truediv (temp_loss_value s) (log_interval args) ;;
    per_sample <- py_int_truediv (temp_matches s) (batch_size args) ;;
    temp_train_acc <- py_truediv per_sample (log_interval args) ;;
    let step := Z.of_nat epoch * Z.of_nat (loader_len train_loader)
                + Z.of_nat idx in
    emit (AddScalar "Train/loss" temp_train_loss step) ;;;
    emit (AddScalar "Train/accuracy" temp_train_acc step) ;;;
    ret {| loss_value := loss_value s; matches := matches s;
           temp_loss_value := Float.zero; temp_matches := 0;
           y_true := y_true s; y_pred := y_pred s |}
  else ret s.

(** [for idx, train_batch in enumerate(train_loaders[i])], from batch
    [idx] on. *)
Fixpoint train_loop (epoch i : nat) (train_loader : DataLoader)
    (idx : nat) (bs : list (list nat)) (s : train_sums) : M train_sums :=
  match bs with
  | [] => ret s
  | train_batch :: rest =>
      emit (ModelForward epoch i idx) ;;;
      let out := forward_train W epoch i idx train_batch in
      emit (OptimizerStep epoch i idx) ;;;
      let m := count_matches (preds out) (labels out) in
      let s1 :=
        {| loss_value := Float.add (loss_value s) (loss out);
           matches := matches s + m;
           temp_loss_value := Float.add (temp_loss_value s) (loss out);
           temp_matches := temp_matches s + m;
           y_true := y_true s ++ labels out;
           y_pred := y_pred s ++ preds out |} in
      s2 <- flush_window epoch train_loader idx s1 ;;
      train_loop epoch i train_loader (S idx) rest s2
  end.

(** The training half of a slot step. *)
Definition train_epoch (epoch i : nat) (train_loader : DataLoader)
  : M train_metrics :=
  s <- train_loop epoch i train_loader 0 (batches train_loader)
         train_sums_init ;;
  let n := Z.of_nat (loader_len train_loader) in
  tl <- py_truediv (loss_value s) n ;;
  ta <- py_int_truediv (matches s) (batch_size args * n) ;;
  ret {| train_loss := tl; train_acc := ta;
         train_f1 := f1_score W (y_pred s) (y_true s) |}.

(** [shuffle=args.dataset != "MaskSplitByProfileDataset"] *)
Definition grid_shuffle : bool :=
  negb (String.eqb (dataset args) "MaskSplitByProfileDataset").

(** [for val_batch in val_loaders[i]], from batch [idx] on. *)
Fixpoint val_loop (epoch i : nat) (idx : nat) (bs : list (list nat))
    (s : val_sums) : M val_sums :=
  match bs with
  | [] => ret s
  | val_batch :: rest =>
      emit (ModelForward epoch i idx) ;;;
      let out := forward_val W epoch i idx val_batch in
      let loss_item := loss out in
      let acc_item := count_matches (labels out) (preds out) in
      fig <- match figure s with
             | None =>
                 f <- grid_image (random_choices W epoch i)
                        (length val_batch) (labels out) (preds out)
                        16 grid_shuffle ;;
                 ret (Some f)
             | Some f => ret (Some f)
             end ;;
      val_loop epoch i (S idx) rest
        {| val_loss_items := val_loss_items s ++ [loss_item];
           val_acc_items := val_acc_items s ++ [acc_item];
           figure := fig;
           val_y_true := val_y_true s ++ labels out;
           val_y_pred := val_y_pred s ++ preds out |}
  end.

(** The end-of-epoch aggregates of the validation loop. *)
Definition val_aggregate (val_loader : DataLoader) (s : val_sums)
  : val_metrics :=
  let n := Z.of_nat (loader_len val_loader) in
  {| val_figure := figure s;
     val_loss := Float.div (np_sum W (val_loss_items s)) (Float.of_int n);
     val_acc := Float.div (Float.of_int (sum_Z (val_acc_items s)))
                  (Float.of_int (valid_batch_size args * n));
     val_f1 := f1_score W (val_y_pred s) (val_y_true s) |}.

(** The validation half of a slot step. *)
Definition validate (epoch i : nat) (val_loader : DataLoader)
  : M val_metrics :=
  s <- val_loop epoch i 0 (batches val_loader) val_sums_init ;;
  ret (val_aggregate val_loader s).

(** The two [torch.save] calls: "best" under the strict test, "last"
    always. *)
Definition checkpoint (epoch i : nat) (f1 best_f1_score : float)
    (scores : list float) : M (list float) :=
  scores' <-
    (if Float.ltb best_f1_score f1 then
       emit (TorchSave epoch i Best) ;;;
       setitem scores i f1
     else ret scores) ;;
  emit (TorchSave epoch i Last) ;;;
  ret scores'.

(** One iteration of [for i in range(5)]; the boolean is [early_stop]. *)
Definition slot_step (train_loaders val_loaders : list DataLoader)
    (epoch i : nat) (st : best_state) : M (best_state * bool) :=
  best_val_acc <- getitem (best_val_accs st) i ;;
  best_val_loss <- getitem (best_val_losses st) i ;;
  best_f1_score <- getitem (best_f1_scores st) i ;;
  emit (ModelTrain epoch i) ;;;
  train_loader <- getitem train_loaders i ;;
  _ <- train_epoch epoch i train_loader ;;
  emit (ModelEval epoch i) ;;;
  val_loader <- getitem val_loaders i ;;
  v <- validate epoch i val_loader ;;
  let best_val_acc := Float.py_max best_val_acc (val_acc v) in
  let best_val_loss := Float.py_min best_val_loss (val_loss v) in
  accs <- setitem (best_val_accs st) i best_val_acc ;;
  losses <- setitem (best_val_losses st) i best_val_loss ;;
  scores <- checkpoint epoch i (val_f1 v) best_f1_score (best_f1_scores st) ;;
  emit (AddScalar "Val/loss" (val_loss v) (Z.of_nat epoch)) ;;;
  emit (AddScalar "Val/accuracy" (val_acc v) (Z.of_nat epoch)) ;;;
  emit (AddScalar "Val/F1" (val_f1 v) (Z.of_nat epoch)) ;;;
  emit (AddFigure (val_figure v) (Z.of_nat epoch)) ;;;
  emit (EarlyStoppingCall epoch i (val_loss v)) ;;;
  ret ({| best_val_accs := accs; best_val_losses := losses;
          best_f1_scores := scores |},
       early_stopping W epoch i (val_loss v)).

(** [for i in range(5)] with its [break]. *)
Fixpoint slot_loop (train_loaders val_loaders : list DataLoader)
    (epoch : nat) (slots : list nat) (st : best_state) : M best_state :=
  match slots with
  | [] => ret st
  | i :: rest =>
      r <- slot_step train_loaders val_loaders epoch i st ;;
      if snd r then ret (fst r)
      else slot_loop train_loaders val_loaders epoch rest (fst r)
  end.

(** [for epoch in range(args.epochs)] *)
Fixpoint epoch_loop (train_loaders val_loaders : list DataLoader)
    (es : list nat) (st : best_state) : M best_state :=
  match es with
  | [] => ret st
  | epoch :: rest =>
      st' <- slot_loop train_loaders val_loaders epoch (seq 0 5) st ;;
      epoch_loop train_loaders val_loaders rest st'
  end.

(** [for dataset in datasets]: the two loaders of each slot. *)
Fixpoint make_loaders (slots : list nat)
  : M (list DataLoader * list DataLoader) :=
  match slots with
  | [] => ret ([], [])
  | i :: rest =>
      train_loader <-
        new_DataLoader (train_set_len W i) (batch_size args) true ;;
      val_loader <-
        new_DataLoader (val_set_len W i) (valid_batch_size args) true ;;
      ls <- make_loaders rest ;;
      ret (train_loader :: fst ls, val_loader :: snd ls)
  end.

(** The state after the first [n] epochs of the loop. *)
Definition run_epochs (n : nat) : M best_state :=
  ls <- make_loaders (seq 0 5) ;;
  epoch_loop (fst ls) (snd ls) (seq 0 n) best_state_init.

(** [train(data_dir, model_dir, args)], from the data loaders on. *)
Definition train : M best_state := run_epochs (Z.to_nat (epochs args)).

End Train.

(* ===================================================================== *)
(** ** Reading a trace *)
(* ===================================================================== *)

Definition ckpt_kind_eqb (a b : ckpt_kind) : bool :=
  match a, b with
  | Best, Best | Last, Last => true
  | _, _ => false
  end.

(** The epochs in which the snapshot [kind] of slot [i] is written. *)
Fixpoint saved_epochs (kind : ckpt_kind) (i : nat) (tr : list event)
  : list nat :=
  match tr with
  | [] => []
  | TorchSave epoch j k :: rest =>
      if ((j =? i)%nat && ckpt_kind_eqb k kind)%bool
      then epoch :: saved_epochs kind i rest
      else saved_epochs kind i rest
  | _ :: rest => saved_epochs kind i rest
  end.

(** The checkpoint step of slot [i] over the validation F1 values of
    successive epochs, [best_f1_score] being read from the list at the top
    of each step as [slot_step] does. *)
Fixpoint checkpoint_epochs (i epoch : nat) (f1s : list float)
    (scores : list float) : M (list float) :=
  match f1s with
  | [] => ret scores
  | f1 :: rest =>
      best_f1_score <- getitem scores i ;;
      scores' <- checkpoint epoch i f1 best_f1_score scores ;;
      checkpoint_epochs i (S epoch) rest scores'
  end.

(** The epochs whose F1 is strictly above the best F1 seen before them,
    [best] being the best so far. *)
Fixpoint new_best_epochs (best : float) (epoch : nat) (f1s : list float)
  : list nat :=
  match f1s with
  | [] => []
  | f1 :: rest =>
      if Float.ltb best f1
      then epoch :: new_best_epochs f1 (S epoch) rest
      else new_best_epochs best (S epoch) rest
  end.

(** The F1 values [0.1, 0.3, 0.2, 0.5, 0.5, 0.4]. *)
Definition f1_example : list float :=
  map Float.tenths [1; 3; 2; 5; 5; 4].

(** Entry-wise order of the best values: accuracies and F1 scores do not
    go down, losses do not go up. *)
Definition float_le (a b : float) : Prop := Float.leb a b = true.

Record best_le (s s' : best_state) : Prop := {
  accs_le : Forall2 float_le (best_val_accs s) (best_val_accs s');
  losses_ge : Forall2 float_le (best_val_losses s') (best_val_losses s);
  f1_le : Forall2 float_le (best_f1_scores s) (best_f1_scores s')
}.

Definition no_nan (l : list float) : Prop :=
  Forall (fun x => Float.is_nan x = false) l.

(** Five entries per list, none of them NaN. *)
Record best_wf (s : best_state) : Prop := {
  wf_accs : length (best_val_accs s) = 5%nat /\ no_nan (best_val_accs s);
  wf_losses : length (best_val_losses s) = 5%nat /\ no_nan (best_val_losses s);
  wf_f1 : length (best_f1_scores s) = 5%nat /\ no_nan (best_f1_scores s)
}.

(* ===================================================================== *)
(** ** A small concrete run *)
(* ===================================================================== *)

(** Forty training and forty validation samples per slot, every
    prediction right, every batch loss 0.5, a validation F1 of [0.e]
    in epoch [e], and an early-stop call that answers [stop epoch i]. *)
Definition example_world (stop : nat -> nat -> bool) : Collaborators :=
  {| train_set_len := fun _ => 40%nat;
     val_set_len := fun _ => 40%nat;
     forward_train := fun _ _ _ b =>
       {| labels := map (fun _ => 1) b; preds := map (fun _ => 1) b;
          loss := Float.tenths 5 |};
     forward_val := fun _ _ _ b =>
       {| labels := map (fun _ => 1) b; preds := map (fun _ => 1) b;
          loss := Float.tenths 5 |};
     f1_score := fun _ _ => Float.of_int 1;
     np_sum := fun l => fold_left Float.add l Float.zero;
     early_stopping := fun epoch i _ => stop epoch i;
     random_choices := fun _ _ _ n => seq 0 n |}.

Definition never_stop (epoch i : nat) : bool := false.

Definition example_args : Args :=
  {| epochs := 4; dataset := "EqualDataset"; batch_size := 16;
     valid_batch_size := 16; log_interval := 2 |}.

Definition final_state (m : M best_state) : best_state :=
  match outcome m with
  | Ok s => s
  | Raise _ => best_state_init
  end.

(* ===================================================================== *)
(** ** The phases of a slot step *)
(* ===================================================================== *)

Inductive phase := PhTrain | PhValidate | PhCheckpoint | PhEarlyStop.

(** The call that opens a phase: [models[i].train()], [models[i].eval()],
    the write of the "last" snapshot, the early-stop call. *)
Definition phase_of (ev : event) : option (nat * nat * phase) :=
  match ev with
  | ModelTrain epoch i => Some (epoch, i, PhTrain)
  | ModelEval epoch i => Some (epoch, i, PhValidate)
  | TorchSave epoch i Last => Some (epoch, i, PhCheckpoint)
  | EarlyStoppingCall epoch i _ => Some (epoch, i, PhEarlyStop)
  | _ => None
  end.

Definition phases (tr : list event) : list (nat * nat * phase) :=
  omap phase_of tr.

Definition slot_phases (epoch i : nat) : list (nat * nat * phase) :=
  [(epoch, i, PhTrain); (epoch, i, PhValidate);
   (epoch, i, PhCheckpoint); (epoch, i, PhEarlyStop)].

Definition epoch_phases (epoch : nat) : list (nat * nat * phase) :=
  concat (map (slot_phases epoch) (seq 0 5)).

(** Epoch after epoch, the five slots in the order 0..4, four phases each. *)
Definition schedule (n : nat) : list (nat * nat * phase) :=
  concat (map epoch_phases (seq 0 n)).

(** The slots trained, and validated, in epoch [epoch], in call order. *)
Definition trained_slots (epoch : nat) (tr : list event) : list nat :=
  omap (fun ev => match ev with
                  | ModelTrain e i => if (e =? epoch)%nat then Some i else None
                  | _ => None
                  end) tr.

Definition validated_slots (epoch : nat) (tr : list event) : list nat :=
  omap (fun ev => match ev with
                  | ModelEval e i => if (e =? epoch)%nat then Some i else None
                  | _ => None
                  end) tr.

(** An early-stop call that answers true in epoch [epoch0] for slot [i0]
    and false everywhere else. *)
Definition stop_at (epoch0 i0 : nat) (epoch i : nat) : bool :=
  ((epoch =? epoch0)%nat && (i =? i0)%nat)%bool.

(** [m] goes through the phases [L]: what it has done is a prefix of [L]
    if it raises, and all of [L] with a result in [Q] if it returns. *)
Definition follows {A} (m : M A) (L : list (nat * nat * phase))
    (Q : A -> Prop) : Prop :=
  phases (trace_of m) `prefix_of` L /\
  forall a, outcome m = Ok a -> phases (trace_of m) = L /\ Q a.

(* ===================================================================== *)
(** ** Epoch totals *)
(* ===================================================================== *)

(** The loader that [train] builds for a set of [size] samples. *)
Definition drop_last_loader (size : nat) (bs : Z) : DataLoader :=
  {| dl_size := size; dl_batch_size := Z.to_nat bs; dl_drop_last := true |}.

(** The correct predictions of a training epoch, summed over its batches. *)
Definition train_matches (W : Collaborators) (epoch i : nat)
    (dl : DataLoader) : Z :=
  sum_Z (imap (fun idx b =>
                 let out := forward_train W epoch i idx b in
                 count_matches (preds out) (labels out))
              (batches dl)).

(** The same for a validation epoch. *)
Definition val_matches (W : Collaborators) (epoch i : nat)
    (dl : DataLoader) : Z :=
  sum_Z (imap (fun idx b =>
                 let out := forward_val W epoch i idx b in
                 count_matches (labels out) (preds out))
              (batches dl)).

(** Arguments with batches of five, for a set of seventeen samples. *)
Definition args_batch_5 : Args :=
  {| epochs := 1; dataset := "EqualDataset"; batch_size := 5;
     valid_batch_size := 5; log_interval := 2 |}.

(* ===================================================================== *)
(** ** The metric window, as the logging contract words it *)
(* ===================================================================== *)

(** What the model returns on the batches of a training epoch, in order. *)
Definition train_outs (W : Collaborators) (epoch i : nat) (dl : DataLoader)
  : list batch_out :=
  imap (forward_train W epoch i) (batches dl).

(** The [k]-th window of [N] batches, [k] counted from 1. *)
Definition window (N k : nat) (outs : list batch_out) : list batch_out :=
  take N (drop ((k - 1) * N) outs).

(** The sums of a window, from zero. *)
Definition window_loss (w : list batch_out) : float :=
  fold_left (fun acc o => Float.add acc (loss o)) w Float.zero.

Definition window_matches (w : list batch_out) : Z :=
  fold_left (fun acc o => acc + count_matches (preds o) (labels o)) w 0.

(** The step of the [k]-th flush: the index of the last batch of the
    window, after the batches of the epochs before. *)
Definition flush_step (args : Args) (epoch len k : nat) : Z :=
  Z.of_nat epoch * Z.of_nat len + (Z.of_nat k * log_interval args - 1).

(** The two scalars of the [k]-th flush: mean loss and mean accuracy of
    the window. *)
Definition flush_events (args : Args) (epoch len : nat)
    (outs : list batch_out) (k : nat) : list (string * float * Z) :=
  let N := log_interval args in
  let w := window (Z.to_nat N) k outs in
  [("Train/loss"%string,
    Float.div (window_loss w) (Float.of_int N),
    flush_step args epoch len k);
   ("Train/accuracy"%string,
    Float.div (Float.div (Float.of_int (window_matches w))
                 (Float.of_int (batch_size args)))
      (Float.of_int N),
    flush_step args epoch len k)].

(** One flush after every [log_interval] batches of the epoch. *)
Definition expected_scalars (W : Collaborators) (args : Args)
    (epoch i : nat) (dl : DataLoader) : list (string * float * Z) :=
  let N := Z.to_nat (log_interval args) in
  concat (map (flush_events args epoch (loader_len dl)
                 (train_outs W epoch i dl))
              (seq 1 (length (batches dl) / N))).

(** The scalars a trace sends to the logger. *)
Definition scalars (tr : list event) : list (string * float * Z) :=
  omap (fun ev => match ev with
                  | AddScalar tag value step => Some (tag, value, step)
                  | _ => None
                  end) tr.

(** The steps logged under [tag]. *)
Definition steps_of (tag : string) (l : list (string * float * Z)) : list Z :=
  omap (fun '(t, _, step) => if String.eqb t tag then Some step else None) l.

(* ===================================================================== *)
(** ** Validation metrics and the figure *)
(* ===================================================================== *)

(** What the model returns on the batches of a validation epoch. *)
Definition val_outs (W : Collaborators) (epoch i : nat) (dl : DataLoader)
  : list batch_out :=
  imap (forward_val W epoch i) (batches dl).

(** The sums of the validation loop after the batch results [outs],
    starting from [s]. *)
Definition val_extend (s : val_sums) (outs : list batch_out) : val_sums :=
  {| val_loss_items := val_loss_items s ++ map loss outs;
     val_acc_items :=
       val_acc_items s
       ++ map (fun o => count_matches (labels o) (preds o)) outs;
     figure := figure s;
     val_y_true := val_y_true s ++ concat (map labels outs);
     val_y_pred := val_y_pred s ++ concat (map preds outs) |}.

(** The metrics of a validation epoch, from the batch results alone; the
    figure is only carried along. *)
Definition metrics_of (W : Collaborators) (args : Args) (epoch i : nat)
    (dl : DataLoader) (fig : option Figure) : val_metrics :=
  val_aggregate W args dl
    (val_extend {| val_loss_items := []; val_acc_items := []; figure := fig;
                   val_y_true := []; val_y_pred := [] |}
       (val_outs W epoch i dl)).

(** The visualization step: [grid_image] on the first batch, if any. *)
Definition first_figure (W : Collaborators) (args : Args) (epoch i : nat)
    (dl : DataLoader) : M (option Figure) :=
  match batches dl with
  | [] => ret None
  | b :: _ =>
      let out := forward_val W epoch i 0 b in
      f <- grid_image (random_choices W epoch i) (length b)
             (labels out) (preds out) 16 (grid_shuffle args) ;;
      ret (Some f)
  end.

(** The forward passes of a validation epoch: one for each batch when the
    visualization step returns, that of the first batch alone when it
    raises. *)
Definition val_forwards (W : Collaborators) (args : Args) (epoch i : nat)
    (dl : DataLoader) : list event :=
  map (ModelForward epoch i)
    (seq 0 (match outcome (first_figure W args epoch i dl) with
            | Ok _ => length (batches dl)
            | Raise _ => 1%nat
            end)).

(** Arguments with validation batches of eight. *)
Definition args_val_batch_8 : Args :=
  {| epochs := 4; dataset := "EqualDataset"; batch_size := 16;
     valid_batch_size := 8; log_interval := 2 |}.

(** The example world with a validation set of [n] samples per slot. *)
Definition example_world_val (n : nat) : Collaborators :=
  {| train_set_len := train_set_len (example_world never_stop);
     val_set_len := fun _ => n;
     forward_train := forward_train (example_world never_stop);
     forward_val := forward_val (example_world never_stop);
     f1_score := f1_score (example_world never_stop);
     np_sum := np_sum (example_world never_stop);
     early_stopping := early_stopping (example_world never_stop);
     random_choices := random_choices (example_world never_stop) |}.

(* ===================================================================== *)
(** ** The assertion of [grid_image] *)
(* ===================================================================== *)

(** [m] does not fail an assertion. *)
Definition no_assert {A} (m : M A) : Prop :=
  outcome m <> Raise AssertionError.

(** The loaders [make_loaders] builds for [slots]. *)
Definition loaders_of (len : nat -> nat) (bs : Z) (slots : list nat)
  : list DataLoader :=
  map (fun i => drop_last_loader (len i) bs) slots.

(* ===================================================================== *)
(** ** [increment_path] *)
(* ===================================================================== *)

(** The file system is the list of the paths that exist, in listing
    order, each written as [glob] returns it: POSIX paths in the normal
    form of [str(Path(p))].  A string is the sequence of the bytes of its
    UTF-8 encoding, so that an ASCII string is its own sequence of
    characters. *)
Definition filesystem := list string.

Local Open Scope string_scope.

(** [path.exists()] *)
Definition path_exists (fs : filesystem) (path : string) : bool :=
  existsb (String.eqb path) fs.

Fixpoint has_slash (s : string) : bool :=
  match s with
  | "" => false
  | String c rest => (Ascii.eqb c "/" || has_slash rest)%bool
  end.

(** What follows the last slash. *)
Fixpoint path_name (s : string) : string :=
  match s with
  | "" => ""
  | String c rest =>
      if has_slash rest then path_name rest
      else if Ascii.eqb c "/" then rest else s
  end.

(** [name.rfind('.')], counted from [pos]. *)
Fixpoint rfind_dot (s : string) (pos : nat) : option nat :=
  match s with
  | "" => None
  | String c rest =>
      match rfind_dot rest (S pos) with
      | Some i => Some i
      | None => if Ascii.eqb c "." then Some pos else None
      end
  end.

(** [path.stem]: the name without its suffix; a dot in first or last
    place starts no suffix.  The name of the current directory [.] is
    empty. *)
Definition path_stem (path : string) : string :=
  let name := if String.eqb path "." then "" else path_name path in
  match rfind_dot name 0 with
  | Some i =>
      if ((0 <? i)%nat && (i <? String.length name - 1)%nat)%bool
      then substring 0 i name
      else name
  | None => name
  end.

Fixpoint string_forall (p : ascii -> bool) (s : string) : bool :=
  match s with
  | "" => true
  | String c rest => (p c && string_forall p rest)%bool
  end.

Definition is_ascii (c : ascii) : bool := (nat_of_ascii c <? 128)%nat.

(** The characters [glob] reads as wildcards. *)
Definition glob_magic (c : ascii) : bool :=
  existsb (Ascii.eqb c) (list_ascii_of_string "*?[").

(** The characters a regular expression does not read as themselves. *)
Definition regex_special (c : ascii) : bool :=
  existsb (Ascii.eqb c) (list_ascii_of_string ".^$*+?{}[]\|()").

(** The imported [glob] and [re] and the builtin [int] and [str], where
    their behaviour is not written out below: patterns with wildcards or
    special characters, text outside ASCII, and numerals longer than every
    interpreter accepts. *)
Record PathLibs := {
  (** [glob.glob(pattern)] over the file system *)
  lib_glob : filesystem -> string -> list string;
  (** [re.search(pattern, d)]: the error raised for the pattern, or no
      match, or a match with its [groups()[0]], which is [None] when the
      first group took no part in the match *)
  lib_search : string -> string -> result (option (option string));
  (** [int(group)] *)
  lib_int : option string -> result Z;
  (** [str(n)] *)
  lib_str : Z -> result string
}.

(** The existing paths that continue [path] inside the same directory. *)
Definition literal_glob (fs : filesystem) (path : string) : list string :=
  List.filter
    (fun d => (String.prefix path d
               && negb (has_slash
                          (substring (String.length path)
                             (String.length d - String.length path) d)))%bool)
    fs.

(** The pattern [f"{path}*"] holds no wildcard but its last character,
    and the name it starts with is neither empty (as it is for the root
    and for the current directory [.]) nor [..]: then the pattern names
    the entries of the directory of [path] whose name starts with the name
    of [path]. *)
Definition literal_glob_ok (path : string) : bool :=
  (string_forall (fun c => negb (glob_magic c)) path
   && negb (String.eqb path ".")
   && negb (String.eqb (path_name path) "")
   && negb (String.eqb (path_name path) ".."))%bool.

(** [glob.glob(f"{path}*")] *)
Definition glob_glob (lib : PathLibs) (fs : filesystem) (path : string)
  : list string :=
  if literal_glob_ok path then literal_glob fs path
  else lib_glob lib fs (path ++ "*").

Definition is_digit (c : ascii) : bool :=
  ((48 <=? nat_of_ascii c)%nat && (nat_of_ascii c <=? 57)%nat)%bool.

Fixpoint all_digits (s : string) : bool :=
  match s with
  | "" => true
  | String c rest => (is_digit c && all_digits rest)%bool
  end.

(** The longest run of digits at the head of [s]: what [\d+] takes in
    ASCII text. *)
Fixpoint take_digits (s : string) : string :=
  match s with
  | "" => ""
  | String c rest => if is_digit c then String c (take_digits rest) else ""
  end.

(** The text [stem] followed by digits, at the head of [d]; the result is
    the run of digits. *)
Definition literal_match (stem d : string) : option string :=
  if String.prefix stem d then
    match take_digits (substring (String.length stem)
                         (String.length d - String.length stem) d) with
    | "" => None
    | digits => Some digits
    end
  else None.

(** The leftmost place of [d] where [stem] is followed by digits. *)
Fixpoint literal_search (stem d : string) : option string :=
  match literal_match stem d with
  | Some digits => Some digits
  | None =>
      match d with
      | "" => None
      | String _ rest => literal_search stem rest
      end
  end.

(** A stem that the pattern reads character by character. *)
Definition literal_stem (stem : string) : bool :=
  string_forall (fun c => (is_ascii c && negb (regex_special c))%bool) stem.

(** [re.search(rf"%s(\d+)" % stem, d)] with the first group of the match.
    When the stem holds no special character and all the text is ASCII,
    the pattern is the stem itself followed by a group of decimal digits,
    and the search returns its leftmost match; the group always takes
    part in it. *)
Definition re_search (lib : PathLibs) (stem d : string)
  : result (option (option string)) :=
  if (literal_stem stem && string_forall is_ascii d)%bool
  then Ok (option_map Some (literal_search stem d))
  else lib_search lib (stem ++ "(\d+)") d.

(** The value of a run of ASCII digits. *)
Definition int_of_digits (digits : string) : Z :=
  fold_left (fun acc c => 10 * acc + (Z.of_nat (nat_of_ascii c) - 48))
    (list_ascii_of_string digits) 0%Z.

(** Every interpreter converts between an int and a decimal numeral of
    at most this many digits; a newer one refuses longer numerals unless
    it is told otherwise. *)
Definition int_max_str_digits : nat := 4300.

(** [int(m.groups()[0])] *)
Definition py_int (lib : PathLibs) (group : option string) : result Z :=
  match group with
  | None => Raise TypeError
  | Some digits =>
      if (negb (String.eqb digits "") && all_digits digits
          && (String.length digits <=? int_max_str_digits)%nat)%bool
      then Ok (int_of_digits digits)
      else lib_int lib group
  end.

(** [max(i)] of a non-empty list *)
Definition max_list (i : list Z) : Z :=
  match i with
  | [] => 0%Z
  | x :: rest => fold_left Z.max rest x
  end.

(** [str(n)] for [n >= 0] *)
Definition str_of_int (n : Z) : string :=
  NilZero.string_of_uint (N.to_uint (Z.to_N n)).

(** [str(n)] *)
Definition py_str (lib : PathLibs) (n : Z) : result string :=
  if ((0 <=? n)%Z
      && (String.length (str_of_int n) <=? int_max_str_digits)%nat)%bool
  then Ok (str_of_int n)
  else lib_str lib n.

(** The first exception of a comprehension ends it. *)
Definition rbind {A B} (r : result A) (k : A -> result B) : result B :=
  match r with
  | Ok a => k a
  | Raise e => Raise e
  end.

(** [[f(x) for x in l]] *)
Fixpoint rmap {A B} (f : A -> result B) (l : list A) : result (list B) :=
  match l with
  | [] => Ok []
  | x :: rest =>
      rbind (f x) (fun y =>
      rbind (rmap f rest) (fun ys => Ok (y :: ys)))
  end.

(** [increment_path(path, exist_ok)]; [path] is [str(Path(path))]. *)
Definition increment_path (lib : PathLibs) (fs : filesystem) (path : string)
    (exist_ok : bool) : result string :=
  if ((path_exists fs path && exist_ok) || negb (path_exists fs path))%bool
  then Ok path
  else
    let dirs := glob_glob lib fs path in
    rbind (rmap (re_search lib (path_stem path)) dirs) (fun matches =>
    rbind (rmap (py_int lib) (omap id matches)) (fun i =>
    let n := match i with
             | [] => 2%Z
             | _ :: _ => (max_list i + 1)%Z
             end in
    rbind (py_str lib n) (fun s => Ok (path ++ s)))).

(** The number a sibling of [path] carries: [d] is [path] followed by
    digits only. *)
Definition numeric_suffix (path d : string) : option Z :=
  if String.prefix path d then
    let rest := substring (String.length path)
                  (String.length d - String.length path) d in
    if (negb (String.eqb rest "")
        && String.eqb (take_digits rest) rest)%bool
    then Some (int_of_digits rest)
    else None
  else None.

Local Close Scope string_scope.

(* ===================================================================== *)
(** ** Macro-averaged F1 *)
(* ===================================================================== *)

Definition Qc_of_Z (z : Z) : Qc := Q2Qc (inject_Z z).

(** [a / b], and 0 when [b] is 0 (the zero-division value of the score). *)
Definition safe_div (a b : Qc) : Qc :=
  if Qc_eq_dec b (Qc_of_Z 0) then Qc_of_Z 0 else (a / b)%Qc.

(** The samples of class [c] that are predicted as [c]. *)
Fixpoint true_positives (c : Z) (y_true y_pred : list Z) : Z :=
  match y_true, y_pred with
  | t :: ts, p :: ps =>
      (if ((t =? c) && (p =? c))%bool then 1 else 0)
      + true_positives c ts ps
  | _, _ => 0
  end.

(** How often [c] occurs in [ys]. *)
Fixpoint occurrences (c : Z) (ys : list Z) : Z :=
  match ys with
  | [] => 0
  | y :: rest => (if y =? c then 1 else 0) + occurrences c rest
  end.

Definition precision (c : Z) (y_true y_pred : list Z) : Qc :=
  safe_div (Qc_of_Z (true_positives c y_true y_pred))
    (Qc_of_Z (occurrences c y_pred)).

Definition recall (c : Z) (y_true y_pred : list Z) : Qc :=
  safe_div (Qc_of_Z (true_positives c y_true y_pred))
    (Qc_of_Z (occurrences c y_true)).

(** The F1 score of class [c]: the harmonic mean of precision and
    recall. *)
Definition class_f1 (c : Z) (y_true y_pred : list Z) : Qc :=
  let p := precision c y_true y_pred in
  let r := recall c y_true y_pred in
  safe_div (Qc_of_Z 2 * p * r)%Qc (p + r)%Qc.

(** The classes that occur in either sequence. *)
Definition present_labels (y_true y_pred : list Z) : list Z :=
  elements ((list_to_set y_true ∪ list_to_set y_pred) : gset Z).

Definition Qc_sum (l : list Qc) : Qc := fold_right Qcplus (Qc_of_Z 0) l.

(** Modelled from the spec: [sklearn.metrics.f1_score] is imported, not
    part of the script.  With [average='macro'] it is the F1 score computed
    per class and then averaged, unweighted, over the classes; the first
    argument is the true labels, the second the predicted ones, and the
    two must have the same number of samples.  The value is exact here,
    a rational number. *)
Definition macro_f1 (y_true y_pred : list Z) : result Qc :=
  if (length y_true =? length y_pred)%nat then
    let classes := present_labels y_true y_pred in
    Ok (safe_div
          (Qc_sum (map (fun c => class_f1 c y_true y_pred) classes))
          (Qc_of_Z (Z.of_nat (length classes))))
  else Raise ValueError.

(** The float next to a rational score; NaN stands for a raised error. *)
Definition score_to_float (r : result Qc) : float :=
  match r with
  | Ok q => Float.div (Float.of_int (Qnum (this q)))
              (Float.of_int (Zpos (Qden (this q))))
  | Raise _ => S754_nan
  end.

(** The example world with the macro-F1 above as its [f1_score]. *)
Definition example_world_f1 : Collaborators :=
  {| train_set_len := train_set_len (example_world never_stop);
     val_set_len := val_set_len (example_world never_stop);
     forward_train := forward_train (example_world never_stop);
     forward_val := forward_val (example_world never_stop);
     f1_score := fun a b => score_to_float (macro_f1 a b);
     np_sum := np_sum (example_world never_stop);
     early_stopping := early_stopping (example_world never_stop);
     random_choices := random_choices (example_world never_stop) |}.

(* ===================================================================== *)
(** ** The shape of an epoch under early stopping *)
(* ===================================================================== *)

(** The validation loader of slot [i], as [train] builds it. *)
Definition val_loader_of (W : Collaborators) (args : Args) (i : nat)
  : DataLoader :=
  drop_last_loader (val_set_len W i) (valid_batch_size args).

(** What the early-stop call of slot [i] answers in epoch [epoch]: it is
    made on the validation loss of that epoch, which the figure does not
    enter. *)
Definition stop_answer (W : Collaborators) (args : Args) (epoch i : nat)
  : bool :=
  early_stopping W epoch i
    (val_loss (metrics_of W args epoch i (val_loader_of W args i) None)).

(** The slots an epoch goes through: up to and including the first one
    whose call answers true. *)
Fixpoint visited (stop : nat -> bool) (slots : list nat) : list nat :=
  match slots with
  | [] => []
  | i :: rest => if stop i then [i] else i :: visited stop rest
  end.

(** The phases of [n] epochs with the [break]. *)
Definition run_phases (W : Collaborators) (args : Args) (n : nat)
  : list (nat * nat * phase) :=
  concat (map (fun epoch =>
                 concat (map (slot_phases epoch)
                           (visited (stop_answer W args epoch) (seq 0 5))))
              (seq 0 n)).

(* ===================================================================== *)
(** ** The samples of a figure *)
(* ===================================================================== *)

(** The samples [grid_image] draws: [random.choices(range(batch_size),
    k=n)] under shuffling, [list(range(n))] otherwise. *)
Definition grid_choices (choices_rnd : nat -> nat -> list nat)
    (batch_size n : nat) (shuffle : bool) : list nat :=
  if shuffle then choices_rnd batch_size n else seq 0 n.

(* ===================================================================== *)
(** ** Reading the training trace *)
(* ===================================================================== *)

(** The batch indices of the optimizer steps of slot [i] in epoch
    [epoch], in call order. *)
Definition optimizer_steps (epoch i : nat) (tr : list event) : list nat :=
  omap (fun ev => match ev with
                  | OptimizerStep e j idx =>
                      if ((e =? epoch)%nat && (j =? i)%nat)%bool
                      then Some idx else None
                  | _ => None
                  end) tr.

(** The batch losses of a training epoch, added from the left as
    [loss_value += loss.item()] does. *)
Definition train_loss_sum (W : Collaborators) (epoch i : nat)
    (dl : DataLoader) : float :=
  fold_left (fun acc o => Float.add acc (loss o))
    (train_outs W epoch i dl) Float.zero.

(* ===================================================================== *)
(** ** Paths whose parent part cannot be taken for a numbered sibling *)
(* ===================================================================== *)

Local Open Scope string_scope.

(** The path without its name: up to and including the last slash. *)
Fixpoint path_parent (s : string) : string :=
  match s with
  | "" => ""
  | String c rest =>
      if has_slash rest then String c (path_parent rest)
      else if Ascii.eqb c "/" then "/" else ""
  end.

Fixpoint ends_with_slash (s : string) : bool :=
  match s with
  | "" => false
  | String c "" => Ascii.eqb c "/"
  | String _ rest => ends_with_slash rest
  end.

(** The value of a decimal numeral read from the left, [acc] being the
    value of the digits already read. *)
Fixpoint uint_value (d : Decimal.uint) (acc : Z) : Z :=
  match d with
  | Decimal.Nil => acc
  | Decimal.D0 l => uint_value l (10 * acc + 0)
  | Decimal.D1 l => uint_value l (10 * acc + 1)
  | Decimal.D2 l => uint_value l (10 * acc + 2)
  | Decimal.D3 l => uint_value l (10 * acc + 3)
  | Decimal.D4 l => uint_value l (10 * acc + 4)
  | Decimal.D5 l => uint_value l (10 * acc + 5)
  | Decimal.D6 l => uint_value l (10 * acc + 6)
  | Decimal.D7 l => uint_value l (10 * acc + 7)
  | Decimal.D8 l => uint_value l (10 * acc + 8)
  | Decimal.D9 l => uint_value l (10 * acc + 9)
  end.

(** A path that [glob] and [re] read character by character: no wildcard
    in the path, a name that is neither empty nor [..], and a stem free
    of special characters. *)
Definition literal_path (path : string) : bool :=
  (literal_glob_ok path && literal_stem (path_stem path))%bool.

(** The length a path of the system stays below. *)
Definition path_max : nat := 4096.

(** Every existing path is ASCII text, shorter than [path_max]. *)
Definition plain_paths (fs : filesystem) : bool :=
  forallb (fun d => (string_forall is_ascii d
                     && (String.length d <? path_max)%nat)%bool) fs.

(** The numbers that follow the stem of [path] in its siblings, one for
    each sibling that holds the stem followed by digits. *)
Definition sibling_numbers (fs : filesystem) (path : string) : list Z :=
  omap (fun m => option_map int_of_digits m)
    (map (literal_search (path_stem path)) (literal_glob fs path)).

(** The name carries no suffix, and the stem is followed by digits
    nowhere in the parent part of the path. *)
Definition plain_parent (path : string) : Prop :=
  path_stem path = path_name path /\
  literal_search (path_stem path) (path_parent path) = None.

Local Close Scope string_scope.

(** Libraries that accept nothing outside the fragment written out
    above. *)
Definition example_libs : PathLibs :=
  {| lib_glob := fun _ _ => [];
     lib_search := fun _ _ => Raise ReError;
     lib_int := fun _ => Raise ValueError;
     lib_str := fun _ => Raise ValueError |}.

(** The number [increment_path] appends when the path exists. *)
Definition next_number (fs : filesystem) (path : string) : Z :=
  match sibling_numbers fs path with
  | [] => 2
  | _ :: _ => max_list (sibling_numbers fs path) + 1
  end.

(* ===================================================================== *)
(** ** Slots and defaults *)
(* ===================================================================== *)

(** The slot a call belongs to; the logger calls carry none. *)
Definition event_slot (ev : event) : option nat :=
  match ev with
  | ModelTrain _ i => Some i
  | ModelForward _ i _ => Some i
  | OptimizerStep _ i _ => Some i
  | ModelEval _ i => Some i
  | TorchSave _ i _ => Some i
  | EarlyStoppingCall _ i _ => Some i
  | AddScalar _ _ _ => None
  | AddFigure _ _ => None
  end.

(** Every call of [m] that belongs to a slot belongs to slot [i]. *)
Definition own_events {A} (i : nat) (m : M A) : Prop :=
  Forall (fun ev => event_slot ev = None \/ event_slot ev = Some i)
    (trace_of m).

(** The defaults of the argument parser. *)
Definition default_args : Args :=
  {| epochs := 1; dataset := "EqualDataset"; batch_size := 16;
     valid_batch_size := 32; log_interval := 20 |}.

(* ===================================================================== *)
(** ** The calls of a slot step *)
(* ===================================================================== *)










(* ===================================================================== *)
(** * Properties *)
(* ===================================================================== *)

(** ** The order on floats *)

Ltac cmp_cases :=
  repeat match goal with
  | |- context [Z.compare ?a ?b] => destruct (Z.compare_spec a b)
  | H : context [Z.compare ?a ?b] |- _ => destruct (Z.compare_spec a b)
  | |- context [Pos.compare ?a ?b] => destruct (Pos.compare_spec a b)
  | H : context [Pos.compare ?a ?b] |- _ => destruct (Pos.compare_spec a b)
  end.

Ltac float_cases a b c :=
  destruct a as [[]|[]| |[] ? ?], b as [[]|[]| |[] ? ?],
           c as [[]|[]| |[] ? ?];
  simpl; try discriminate; try reflexivity;
  change (Pos.compare_cont Eq) with Pos.compare;
  intros; cmp_cases; simpl in *; subst;
  try discriminate; try reflexivity; try lia.

Lemma float_ltb_leb a b : Float.ltb a b = true -> float_le a b.
Proof.
  unfold float_le, Float.ltb, Float.leb, SFltb, SFleb.
  destruct (SFcompare a b) as [[]|]; congruence.
Qed.

Lemma float_ltb_not_nan a b :
  Float.ltb a b = true -> Float.is_nan b = false.
Proof. destruct a, b; try reflexivity; discriminate. Qed.

Lemma float_le_refl a : Float.is_nan a = false -> float_le a a.
Proof.
  unfold float_le, Float.leb, SFleb.
  destruct a as [s|s| |s m e]; simpl; try discriminate; intros _.
  - reflexivity.
  - destruct s; reflexivity.
  - rewrite Z.compare_refl, Pos.compare_cont_refl. destruct s; reflexivity.
Qed.

Lemma float_le_trans a b c : float_le a b -> float_le b c -> float_le a c.
Proof.
  unfold float_le, Float.leb, SFleb. revert a b c.
  intros a b c. float_cases a b c.
Qed.

Lemma py_max_ge a b : Float.is_nan a = false ->
  float_le a (Float.py_max a b) /\ Float.is_nan (Float.py_max a b) = false.
Proof.
  intros Ha. unfold Float.py_max. destruct (Float.ltb a b) eqn:E.
  - split; [now apply float_ltb_leb | eapply float_ltb_not_nan; eauto].
  - split; [now apply float_le_refl | assumption].
Qed.

Lemma py_min_le a b : Float.is_nan a = false ->
  float_le (Float.py_min a b) a /\ Float.is_nan (Float.py_min a b) = false.
Proof.
  intros Ha. unfold Float.py_min. destruct (Float.ltb b a) eqn:E.
  - split; [now apply float_ltb_leb | destruct b, a; try reflexivity; discriminate].
  - split; [now apply float_le_refl | assumption].
Qed.

(** ** Inversion of the trace monad *)

Lemma bind_Ok {A B} (m : M A) (k : A -> M B) tr b :
  bind m k = (tr, Ok b) ->
  exists t1 a t2, m = (t1, Ok a) /\ k a = (t2, Ok b) /\ tr = t1 ++ t2.
Proof.
  unfold bind. destruct m as [t1 [a|e]]; [|discriminate].
  destruct (k a) as [t2 r] eqn:E. intros [= <- ->]. eauto 6.
Qed.

Lemma bind_trace {A B} (m : M A) (k : A -> M B) :
  trace_of (bind m k) =
  trace_of m ++ match outcome m with
                | Ok a => trace_of (k a)
                | Raise _ => []
                end.
Proof.
  unfold bind, trace_of, outcome. destruct m as [t [a|e]]; simpl.
  - now destruct (k a).
  - now rewrite app_nil_r.
Qed.

Lemma bind_outcome {A B} (m : M A) (k : A -> M B) :
  outcome (bind m k) =
  match outcome m with
  | Ok a => outcome (k a)
  | Raise e => Raise e
  end.
Proof.
  unfold bind, outcome. destruct m as [t [a|e]]; simpl; [|reflexivity].
  now destruct (k a).
Qed.

Lemma bind_ret_l {A B} (a : A) (k : A -> M B) : bind (ret a) k = k a.
Proof. unfold bind, ret. now destruct (k a). Qed.

Lemma bind_ret_l' {A B} t (a : A) (k : A -> M B) :
  bind (t, Ok a) k = (t ++ trace_of (k a), outcome (k a)).
Proof. unfold bind. now destruct (k a). Qed.

Lemma bind_emit {B} ev (k : unit -> M B) :
  bind (emit ev) k = (ev :: trace_of (k tt), outcome (k tt)).
Proof. unfold bind, emit. now destruct (k tt). Qed.

Lemma bind_raise {A B} e (k : A -> M B) : bind (raise e) k = raise e.
Proof. reflexivity. Qed.

Lemma getitem_Ok {A} (l : list A) i tr x :
  getitem l i = (tr, Ok x) -> l !! i = Some x /\ tr = [].
Proof.
  unfold getitem. destruct (l !! i); [|discriminate].
  now intros [= <- <-].
Qed.

Lemma getitem_Some {A} (l : list A) i x :
  l !! i = Some x -> getitem l i = ret x.
Proof. unfold getitem. now intros ->. Qed.

Lemma setitem_Ok {A} (l : list A) i v tr l' :
  setitem l i v = (tr, Ok l') ->
  (i < length l)%nat /\ l' = <[i:=v]> l /\ tr = [].
Proof.
  unfold setitem. destruct (i <? length l)%nat eqn:E; [|discriminate].
  apply Nat.ltb_lt in E. now intros [= <- <-].
Qed.

Lemma emit_Ok ev tr u : emit ev = (tr, Ok u) -> tr = [ev].
Proof. now intros [= <-]. Qed.

Ltac inv_bind H a Hm Hk :=
  let t1 := fresh "tr" in
  let t2 := fresh "tr" in
  let Et := fresh "Etr" in
  apply bind_Ok in H; destruct H as (t1 & a & t2 & Hm & Hk & Et).

(** ** Checkpoint gating *)

Lemma saved_epochs_app kind i t1 t2 :
  saved_epochs kind i (t1 ++ t2) =
  saved_epochs kind i t1 ++ saved_epochs kind i t2.
Proof.
  induction t1 as [|ev t1 IH]; [reflexivity|].
  destruct ev; simpl; try apply IH.
  destruct ((_ =? _)%nat && _)%bool; simpl; now rewrite IH.
Qed.

Lemma checkpoint_eq epoch i f1 best (scores : list float) :
  (i < length scores)%nat ->
  checkpoint epoch i f1 best scores =
  ((if Float.ltb best f1 then [TorchSave epoch i Best] else [])
     ++ [TorchSave epoch i Last],
   Ok (if Float.ltb best f1 then <[i:=f1]> scores else scores)).
Proof.
  intros Hi. unfold checkpoint, setitem.
  apply Nat.ltb_lt in Hi. destruct (Float.ltb best f1); simpl.
  - now rewrite Hi.
  - reflexivity.
Qed.

Lemma checkpoint_epochs_spec i f1s : forall epoch best (scores : list float),
  scores !! i = Some best ->
  exists scores',
    outcome (checkpoint_epochs i epoch f1s scores) = Ok scores' /\
    saved_epochs Best i (trace_of (checkpoint_epochs i epoch f1s scores))
      = new_best_epochs best epoch f1s /\
    saved_epochs Last i (trace_of (checkpoint_epochs i epoch f1s scores))
      = seq epoch (length f1s).
Proof.
  induction f1s as [|f1 rest IH]; intros epoch best scores Hb.
  - exists scores. repeat split; reflexivity.
  - pose proof (lookup_lt_Some _ _ _ Hb) as Hlt.
    cbn [checkpoint_epochs]. unfold getitem. rewrite Hb, bind_ret_l.
    rewrite checkpoint_eq by assumption.
    rewrite !bind_trace, !bind_outcome.
    cbn [ret trace_of outcome fst snd app new_best_epochs].
    destruct (Float.ltb best f1) eqn:E.
    + destruct (IH (S epoch) f1 (<[i:=f1]> scores)) as (s' & Ho & Hbest & Hlast).
      { now apply list_lookup_insert_eq. }
      exists s'. unfold outcome, trace_of in *. rewrite Ho.
      split; [reflexivity|].
      cbn [app saved_epochs length seq ckpt_kind_eqb].
      rewrite Nat.eqb_refl. cbn [andb].
      now rewrite Hbest, Hlast.
    + destruct (IH (S epoch) best scores Hb) as (s' & Ho & Hbest & Hlast).
      exists s'. unfold outcome, trace_of in *. rewrite Ho.
      split; [reflexivity|].
      cbn [app saved_epochs length seq ckpt_kind_eqb].
      rewrite Nat.eqb_refl. cbn [andb].
      now rewrite Hbest, Hlast.
Qed.

(** C1, as amended: the checkpoint step of a slot writes "best" exactly
    when the epoch's F1 is strictly above the slot's best F1 so far (0 at
    the start, ties do not overwrite, the best is updated on a write) and
    writes "last" every epoch; for the F1 values 0.1, 0.3, 0.2, 0.5, 0.5,
    0.4 "best" is written at epochs 1, 2 and 4 (counted from 1) and "last"
    at all six. *)
Theorem checkpoint_gating (i epoch : nat) (f1 best : float)
    (scores f1s : list float) :
  (i < 5)%nat ->
  length scores = 5%nat ->
  checkpoint epoch i f1 best scores =
    ((if Float.ltb best f1 then [TorchSave epoch i Best] else [])
       ++ [TorchSave epoch i Last],
     Ok (if Float.ltb best f1 then <[i:=f1]> scores else scores))
  /\ Float.ltb f1 f1 = false
  /\ (let run := checkpoint_epochs i 0 f1s (best_f1_scores best_state_init) in
      (exists scores', outcome run = Ok scores')
      /\ saved_epochs Best i (trace_of run) = new_best_epochs Float.zero 0 f1s
      /\ saved_epochs Last i (trace_of run) = seq 0 (length f1s))
  /\ (let run := checkpoint_epochs i 0 f1_example
                   (best_f1_scores best_state_init) in
      map S (saved_epochs Best i (trace_of run)) = [1; 2; 4]%nat
      /\ map S (saved_epochs Last i (trace_of run)) = [1; 2; 3; 4; 5; 6]%nat).
Proof.
  intros Hi Hlen.
  assert (Hinit : best_f1_scores best_state_init !! i = Some Float.zero).
  { unfold best_state_init, best_f1_scores.
    apply lookup_replicate_2. exact Hi. }
  split; [apply checkpoint_eq; lia|].
  split.
  { unfold Float.ltb, SFltb.
    destruct f1 as [[]|[]| |[] m e]; simpl; try reflexivity;
      rewrite Z.compare_refl, Pos.compare_cont_refl; reflexivity. }
  split.
  - destruct (checkpoint_epochs_spec i f1s 0 _ _ Hinit) as (s' & Ho & Hb & Hl).
    cbv zeta. eauto.
  - destruct (checkpoint_epochs_spec i f1_example 0 _ _ Hinit)
      as (s' & _ & Hb & Hl).
    cbv zeta. rewrite Hb, Hl. split; reflexivity.
Qed.

Lemma checkpoint_gating_witness :
  map S (saved_epochs Best 0
           (trace_of (checkpoint_epochs 0 0 f1_example
                        (best_f1_scores best_state_init))))
  = [1; 2; 4]%nat.
Proof.
  refine (proj1 (proj2 (proj2 (proj2
    (checkpoint_gating 0 0 (Float.tenths 3) (Float.tenths 1)
       (replicate 5 Float.zero) f1_example _ _))))).
  - lia.
  - reflexivity.
Defined.

(** The written epochs for 0.1, 0.3, 0.2, 0.5, 0.5, 0.4 are not 1 and 4
    alone: epoch 2 (0.3 after 0.1) writes as well. *)
Lemma checkpoint_gating_not_1_4 :
  map S (saved_epochs Best 0
           (trace_of (checkpoint_epochs 0 0 f1_example
                        (best_f1_scores best_state_init))))
  <> [1; 4]%nat.
Proof. vm_compute. discriminate. Qed.

(** ** Monotonicity of the best values *)

Lemma bind_assoc {A B C} (m : M A) (f : A -> M B) (g : B -> M C) :
  bind (bind m f) g = bind m (fun a => bind (f a) g).
Proof.
  unfold bind. destruct m as [t [a|e]]; [|reflexivity].
  destruct (f a) as [t1 [b|e]]; [|reflexivity].
  destruct (g b) as [t2 r]. now rewrite app_assoc.
Qed.

Lemma bind_ext {A B} (m : M A) (f g : A -> M B) :
  (forall a, f a = g a) -> bind m f = bind m g.
Proof.
  intros H. unfold bind. destruct m as [t [a|e]]; [|reflexivity].
  now rewrite H.
Qed.

Lemma float_le_insert_r (l : list float) i a v :
  no_nan l -> l !! i = Some a -> float_le a v ->
  Forall2 float_le l (<[i:=v]> l).
Proof.
  intros Hn Hl Hle. rewrite <- (list_insert_id l i a Hl) at 1.
  apply Forall2_insert; [|assumption].
  apply Forall_Forall2_diag. eapply Forall_impl; [exact Hn|].
  intros x Hx. now apply float_le_refl.
Qed.

Lemma float_le_insert_l (l : list float) i a v :
  no_nan l -> l !! i = Some a -> float_le v a ->
  Forall2 float_le (<[i:=v]> l) l.
Proof.
  intros Hn Hl Hle. rewrite <- (list_insert_id l i a Hl) at 2.
  apply Forall2_insert; [|assumption].
  apply Forall_Forall2_diag. eapply Forall_impl; [exact Hn|].
  intros x Hx. now apply float_le_refl.
Qed.

Lemma float_le_diag (l : list float) : no_nan l -> Forall2 float_le l l.
Proof.
  intros Hn. apply Forall_Forall2_diag. eapply Forall_impl; [exact Hn|].
  intros x Hx. now apply float_le_refl.
Qed.

Lemma best_le_refl s : best_wf s -> best_le s s.
Proof.
  intros [[_ Ha] [_ Hl] [_ Hf]]. split; now apply float_le_diag.
Qed.

Lemma best_le_trans s1 s2 s3 : best_le s1 s2 -> best_le s2 s3 -> best_le s1 s3.
Proof.
  intros [A1 L1 F1] [A2 L2 F2]. split.
  - eapply Forall2_trans; [|exact A1|exact A2]. apply float_le_trans.
  - eapply Forall2_trans; [|exact L2|exact L1]. apply float_le_trans.
  - eapply Forall2_trans; [|exact F1|exact F2]. apply float_le_trans.
Qed.

Lemma best_state_init_wf : best_wf best_state_init.
Proof.
  split; (split; [reflexivity|]); repeat constructor.
Qed.

Lemma checkpoint_Ok epoch i f1 best (scores : list float) tr scores' :
  checkpoint epoch i f1 best scores = (tr, Ok scores') ->
  scores' = if Float.ltb best f1 then <[i:=f1]> scores else scores.
Proof.
  unfold checkpoint. intros H. inv_bind H s1 Hs K.
  inv_bind K u Hu K. injection K as _ <-.
  destruct (Float.ltb best f1).
  - inv_bind Hs u' Hu' K. now apply setitem_Ok in K as (_ & -> & _).
  - now injection Hs as _ <-.
Qed.

Section Monotone.

Variable W : Collaborators.
Variable args : Args.

Lemma slot_step_mono tls vls epoch i st tr st' stop :
  slot_step W args tls vls epoch i st = (tr, Ok (st', stop)) ->
  best_wf st -> best_wf st' /\ best_le st st'.
Proof.
  unfold slot_step. intros H [[La Na] [Ll Nl] [Lf Nf]].
  inv_bind H a Ha H. apply getitem_Ok in Ha as [Ha _].
  inv_bind H a0 Hl H. apply getitem_Ok in Hl as [Hl _].
  inv_bind H a1 Hf H. apply getitem_Ok in Hf as [Hf _].
  inv_bind H u0 Hu0 H. inv_bind H trl Htrl H. inv_bind H trm Htrm H.
  inv_bind H u1 Hu1 H. inv_bind H vl Hvl H. inv_bind H a6 Hv H.
  inv_bind H accs Haccs H. apply setitem_Ok in Haccs as (_ & -> & _).
  inv_bind H losses Hlosses H. apply setitem_Ok in Hlosses as (_ & -> & _).
  inv_bind H a9 Hck H. apply checkpoint_Ok in Hck.
  inv_bind H u2 Hu2 H. inv_bind H u3 Hu3 H. inv_bind H u4 Hu4 H.
  inv_bind H u5 Hu5 H. inv_bind H u6 Hu6 H.
  injection H as _ <- <-.
  destruct (py_max_ge a (val_acc a6) (proj1 (Forall_lookup _ _) Na _ _ Ha))
    as [Hmax Hmaxn].
  destruct (py_min_le a0 (val_loss a6) (proj1 (Forall_lookup _ _) Nl _ _ Hl))
    as [Hmin Hminn].
  assert (Hsc : float_le a1 (if Float.ltb a1 (val_f1 a6) then val_f1 a6 else a1)
                /\ Float.is_nan (if Float.ltb a1 (val_f1 a6) then val_f1 a6 else a1) = false).
  { apply (py_max_ge a1 (val_f1 a6)).
    exact (proj1 (Forall_lookup _ _) Nf _ _ Hf). }
  assert (Ha9 : a9 = <[i := if Float.ltb a1 (val_f1 a6) then val_f1 a6 else a1]>
                       (best_f1_scores st)).
  { subst a9. destruct (Float.ltb a1 (val_f1 a6)); [reflexivity|].
    symmetry. now apply list_insert_id. }
  destruct Hsc as [Hsc Hscn].
  split; split; cbn [best_val_accs best_val_losses best_f1_scores].
  - split; [now rewrite length_insert | now apply Forall_insert].
  - split; [now rewrite length_insert | now apply Forall_insert].
  - rewrite Ha9. split; [now rewrite length_insert | now apply Forall_insert].
  - eapply float_le_insert_r; eauto.
  - eapply float_le_insert_l; eauto.
  - rewrite Ha9. eapply float_le_insert_r; eauto.
Qed.

Lemma slot_loop_mono tls vls epoch slots : forall st tr st',
  slot_loop W args tls vls epoch slots st = (tr, Ok st') ->
  best_wf st -> best_wf st' /\ best_le st st'.
Proof.
  induction slots as [|i rest IH]; intros st tr st' H Hwf.
  - injection H as _ <-. split; [assumption | now apply best_le_refl].
  - cbn [slot_loop] in H. inv_bind H r Hr H. destruct r as [st1 stop].
    apply slot_step_mono in Hr as [Hwf1 Hle1]; [|assumption].
    cbn [fst snd] in H. destruct stop.
    + injection H as _ <-. now split.
    + apply IH in H as [Hwf2 Hle2]; [|assumption].
      split; [assumption | eapply best_le_trans; eauto].
Qed.

Lemma epoch_loop_mono tls vls es : forall st tr st',
  epoch_loop W args tls vls es st = (tr, Ok st') ->
  best_wf st -> best_wf st' /\ best_le st st'.
Proof.
  induction es as [|e rest IH]; intros st tr st' H Hwf.
  - injection H as _ <-. split; [assumption | now apply best_le_refl].
  - cbn [epoch_loop] in H. inv_bind H st1 Hs H.
    apply slot_loop_mono in Hs as [Hwf1 Hle1]; [|assumption].
    apply IH in H as [Hwf2 Hle2]; [|assumption].
    split; [assumption | eapply best_le_trans; eauto].
Qed.

Lemma epoch_loop_app tls vls es1 es2 st :
  epoch_loop W args tls vls (es1 ++ es2) st =
  (st' <- epoch_loop W args tls vls es1 st ;;
   epoch_loop W args tls vls es2 st').
Proof.
  revert st. induction es1 as [|e rest IH]; intros st.
  - cbn [app epoch_loop]. now rewrite bind_ret_l.
  - cbn [app epoch_loop]. rewrite bind_assoc.
    apply bind_ext. intros st1. apply IH.
Qed.

End Monotone.

(** C2: for every slot, over any validation results, the tracked best
    accuracy and best F1 never go down and the tracked best loss never goes
    up from one epoch to a later one; they start from 0, 0 and +infinity.
    [n <= m] are two numbers of completed epochs of one run. *)
Theorem best_values_monotone (W : Collaborators) (args : Args) (n m : nat)
    (tr : list event) (s_m : best_state) :
  (n <= m)%nat ->
  run_epochs W args m = (tr, Ok s_m) ->
  exists tr_n s_n,
    run_epochs W args n = (tr_n, Ok s_n) /\
    (n = 0%nat ->
       best_val_accs s_n = replicate 5 Float.zero /\
       best_val_losses s_n = replicate 5 Float.inf /\
       best_f1_scores s_n = replicate 5 Float.zero) /\
    forall i, (i < 5)%nat ->
      exists acc acc' loss loss' f f',
        best_val_accs s_n !! i = Some acc /\
        best_val_accs s_m !! i = Some acc' /\
        best_val_losses s_n !! i = Some loss /\
        best_val_losses s_m !! i = Some loss' /\
        best_f1_scores s_n !! i = Some f /\
        best_f1_scores s_m !! i = Some f' /\
        Float.leb acc acc' = true /\
        Float.leb loss' loss = true /\
        Float.leb f f' = true.
Proof.
  intros Hnm H. unfold run_epochs in *.
  inv_bind H ls Hls H. rewrite Hls, bind_ret_l'.
  replace m with (n + (m - n))%nat in H by lia.
  rewrite seq_app, epoch_loop_app in H.
  inv_bind H s_n Hn H. rewrite Hn.
  destruct (epoch_loop_mono _ _ _ _ _ _ _ _ Hn best_state_init_wf)
    as [Hwfn _].
  destruct (epoch_loop_mono _ _ _ _ _ _ _ _ H Hwfn) as [Hwfm [HA HL HF]].
  eexists _, s_n. split; [reflexivity|]. split.
  { intros ->. cbn in *. now injection Hn as _ <-. }
  intros i Hi.
  destruct Hwfn as [[La _] [Ll _] [Lf _]], Hwfm as [[La' _] [Ll' _] [Lf' _]].
  destruct (lookup_lt_is_Some_2 (best_val_accs s_n) i) as [acc Ha]; [lia|].
  destruct (lookup_lt_is_Some_2 (best_val_accs s_m) i) as [acc' Ha']; [lia|].
  destruct (lookup_lt_is_Some_2 (best_val_losses s_n) i) as [l Hl]; [lia|].
  destruct (lookup_lt_is_Some_2 (best_val_losses s_m) i) as [l' Hl']; [lia|].
  destruct (lookup_lt_is_Some_2 (best_f1_scores s_n) i) as [f Hf]; [lia|].
  destruct (lookup_lt_is_Some_2 (best_f1_scores s_m) i) as [f' Hf']; [lia|].
  exists acc, acc', l, l', f, f'. repeat split; try assumption.
  - exact (Forall2_lookup_lr _ _ _ _ _ _ HA Ha Ha').
  - exact (Forall2_lookup_lr _ _ _ _ _ _ HL Hl' Hl).
  - exact (Forall2_lookup_lr _ _ _ _ _ _ HF Hf Hf').
Qed.

Lemma best_values_monotone_witness :
  exists tr_n s_n,
    run_epochs (example_world never_stop) example_args 1 = (tr_n, Ok s_n).
Proof.
  destruct (best_values_monotone (example_world never_stop) example_args 1 2
              (trace_of (run_epochs (example_world never_stop) example_args 2))
              (final_state
                 (run_epochs (example_world never_stop) example_args 2)))
    as (tr_n & s_n & H & _).
  - lia.
  - vm_compute. reflexivity.
  - eauto.
Defined.

(** ** The order of the calls *)

Lemma phases_app t1 t2 : phases (t1 ++ t2) = phases t1 ++ phases t2.
Proof. apply omap_app. Qed.

Lemma follows_ret {A} (a : A) (Q : A -> Prop) : Q a -> follows (ret a) [] Q.
Proof.
  intros HQ. split; [apply prefix_nil|].
  intros a' [= <-]. now split.
Qed.

Lemma follows_silent {A} (m : M A) :
  phases (trace_of m) = [] -> follows m [] (fun _ => True).
Proof.
  intros H. split; [rewrite H; apply prefix_nil|]. now intros a _.
Qed.

Lemma follows_emit ev : follows (emit ev) (phases [ev]) (fun _ => True).
Proof. split; [reflexivity|]. now intros a _. Qed.

Lemma follows_emit_silent ev :
  phase_of ev = None -> follows (emit ev) [] (fun _ => True).
Proof.
  intros H. apply follows_silent. cbn. now rewrite H.
Qed.

Lemma follows_emit_phase ev p :
  phase_of ev = Some p -> follows (emit ev) [p] (fun _ => True).
Proof.
  intros H. split; [|intros a _; split; [|trivial]]; cbn; now rewrite H.
Qed.

Lemma follows_bind {A B} (m : M A) (k : A -> M B) L1 L2 Q R :
  follows m L1 Q ->
  (forall a, Q a -> follows (k a) L2 R) ->
  follows (bind m k) (L1 ++ L2) R.
Proof.
  intros [Hp Hm] Hk. unfold follows.
  rewrite bind_trace, bind_outcome, phases_app.
  destruct (outcome m) as [a|e] eqn:E.
  - destruct (Hm a eq_refl) as [-> HQ].
    destruct (Hk a HQ) as [Hpk Hok]. split.
    + now apply prefix_app.
    + intros b Hb. destruct (Hok b Hb) as [-> HR]. now split.
  - rewrite app_nil_r. split; [|discriminate].
    now apply prefix_app_r.
Qed.

Lemma follows_eq {A} (m : M A) L L' Q :
  follows m L' Q -> L = L' -> follows m L Q.
Proof. now intros H ->. Qed.

Lemma getitem_trace {A} (l : list A) i : trace_of (getitem l i) = [].
Proof. unfold getitem. now destruct (l !! i). Qed.

Lemma setitem_trace {A} (l : list A) i v : trace_of (setitem l i v) = [].
Proof. unfold setitem. now destruct (_ <? _)%nat. Qed.

Lemma py_truediv_trace x n : trace_of (py_truediv x n) = [].
Proof. unfold py_truediv. now destruct (n =? 0). Qed.

Lemma py_mod_trace a b : trace_of (py_mod a b) = [].
Proof. unfold py_mod. now destruct (b =? 0). Qed.

Lemma py_assert_trace b : trace_of (py_assert b) = [].
Proof. now destruct b. Qed.

Lemma subplots_trace gts ps choices : trace_of (subplots gts ps choices) = [].
Proof.
  induction choices as [|c rest IH]; [reflexivity|].
  cbn [subplots]. rewrite !bind_trace, !getitem_trace.
  destruct (outcome (getitem gts c)); [|reflexivity].
  rewrite bind_trace, getitem_trace.
  destruct (outcome (getitem ps c)); [|reflexivity].
  rewrite bind_trace, IH.
  now destruct (outcome (subplots gts ps rest)).
Qed.

Lemma grid_image_trace rnd bsz gts ps n shuffle :
  trace_of (grid_image rnd bsz gts ps n shuffle) = [].
Proof.
  unfold grid_image. rewrite bind_trace, py_assert_trace.
  destruct (outcome _); [|reflexivity]. apply subplots_trace.
Qed.

Section Order.

Variable W : Collaborators.
Variable args : Args.

Lemma val_loop_phases epoch i bs : forall idx s,
  phases (trace_of (val_loop W args epoch i idx bs s)) = [].
Proof.
  induction bs as [|b rest IH]; intros idx s; [reflexivity|].
  cbn [val_loop]. rewrite bind_emit. cbn [trace_of fst].
  change (phases (?ev :: ?t)) with (phases t).
  rewrite bind_trace.
  destruct (figure s).
  - cbn [trace_of ret fst outcome snd app]. apply IH.
  - rewrite bind_trace, grid_image_trace, bind_outcome.
    destruct (outcome (grid_image _ _ _ _ _ _)); [|reflexivity].
    cbn [trace_of ret fst outcome snd app]. apply IH.
Qed.

Lemma validate_phases epoch i vl :
  phases (trace_of (validate W args epoch i vl)) = [].
Proof.
  unfold validate. rewrite bind_trace, phases_app, val_loop_phases.
  now destruct (outcome _).
Qed.

Lemma flush_window_phases epoch dl idx s :
  phases (trace_of (flush_window args epoch dl idx s)) = [].
Proof.
  unfold flush_window. rewrite bind_trace, py_mod_trace.
  destruct (outcome _) as [r|]; [|reflexivity].
  destruct (r =? 0); [|reflexivity].
  rewrite bind_trace, py_truediv_trace.
  destruct (outcome _); [|reflexivity].
  unfold py_int_truediv. rewrite bind_trace, py_truediv_trace.
  destruct (outcome _); [|reflexivity].
  rewrite bind_trace, py_truediv_trace.
  destruct (outcome _); [|reflexivity].
  reflexivity.
Qed.

Lemma train_loop_phases epoch i dl bs : forall idx s,
  phases (trace_of (train_loop W args epoch i dl idx bs s)) = [].
Proof.
  induction bs as [|b rest IH]; intros idx s; [reflexivity|].
  cbn [train_loop]. rewrite bind_emit. cbn [trace_of fst].
  change (phases (?ev :: ?t)) with (phases t).
  cbv zeta. rewrite bind_emit. cbn [trace_of fst].
  rewrite bind_trace. change (phases (?ev :: ?t)) with (phases ([ev] ++ t)).
  rewrite !phases_app, flush_window_phases.
  destruct (outcome _); [apply IH|reflexivity].
Qed.

Lemma train_epoch_phases epoch i dl :
  phases (trace_of (train_epoch W args epoch i dl)) = [].
Proof.
  unfold train_epoch. rewrite bind_trace, phases_app, train_loop_phases.
  destruct (outcome _); [|reflexivity].
  rewrite bind_trace, py_truediv_trace.
  destruct (outcome _); [|reflexivity].
  unfold py_int_truediv. rewrite bind_trace, py_truediv_trace.
  now destruct (outcome _).
Qed.

Lemma follows_checkpoint epoch i f1 best scores :
  follows (checkpoint epoch i f1 best scores) [(epoch, i, PhCheckpoint)]
    (fun _ => True).
Proof.
  unfold checkpoint. eapply follows_eq.
  - eapply follows_bind.
    + destruct (Float.ltb best f1).
      * eapply follows_eq.
        -- eapply follows_bind; [apply follows_emit|intros _ _].
           apply follows_silent. now rewrite setitem_trace.
        -- reflexivity.
      * now apply follows_ret.
    + intros s _. eapply follows_bind; [apply follows_emit|intros _ _].
      now apply follows_ret.
  - reflexivity.
Qed.

Lemma make_loaders_trace slots : trace_of (make_loaders W args slots) = [].
Proof.
  induction slots as [|i rest IH]; [reflexivity|].
  cbn [make_loaders]. unfold new_DataLoader.
  destruct (batch_size args <=? 0); [reflexivity|]. rewrite bind_ret_l.
  destruct (valid_batch_size args <=? 0); [reflexivity|]. rewrite bind_ret_l.
  rewrite bind_trace, IH. now destruct (outcome _).
Qed.

End Order.

(** C3, the code at the failing input: four epochs, the early-stop call of
    slot 2 answers true in the third epoch (index 2) and nowhere else.  The
    [break] leaves the slot loop: slots 3 and 4 lose the rest of the third
    epoch, and in the fourth epoch slot 2 is trained and validated again. *)
Theorem early_stop_leaves_slot_loop :
  let run := train (example_world (stop_at 2 2)) example_args in
  (exists st, outcome run = Ok st) /\
  trained_slots 2 (trace_of run) = [0; 1; 2]%nat /\
  validated_slots 2 (trace_of run) = [0; 1; 2]%nat /\
  trained_slots 3 (trace_of run) = [0; 1; 2; 3; 4]%nat /\
  validated_slots 3 (trace_of run) = [0; 1; 2; 3; 4]%nat.
Proof.
  cbv zeta. split.
  { eexists. vm_compute. reflexivity. }
  repeat apply conj; vm_compute; reflexivity.
Qed.

(** ** Drop-last batching and the accuracy denominators *)

Lemma batch_sampler_drop_last bs sampler : forall cur,
  (length cur < bs)%nat ->
  length (batch_sampler bs true sampler cur)
    = ((length cur + length sampler) / bs)%nat /\
  Forall (fun b => length b = bs) (batch_sampler bs true sampler cur).
Proof.
  induction sampler as [|x rest IH]; intros cur Hlt.
  - cbn [batch_sampler length]. rewrite Nat.add_0_r, Nat.div_small by lia.
    destruct cur; split; (reflexivity || constructor).
  - cbn [batch_sampler]. destruct (length (x :: cur) =? bs)%nat eqn:E.
    + apply Nat.eqb_eq in E. destruct (IH [] ltac:(cbn; lia)) as [Hl Hf].
      split.
      * cbn [length] in *. rewrite Hl. cbn [length Nat.add].
        replace (length cur + S (length rest))%nat
          with (1 * bs + length rest)%nat by lia.
        rewrite Nat.div_add_l by lia. reflexivity.
      * constructor; [now rewrite length_rev|assumption].
    + apply Nat.eqb_neq in E.
      destruct (IH (x :: cur) ltac:(cbn [length] in *; lia)) as [Hl Hf].
      split; [|assumption]. rewrite Hl. cbn [length]. f_equal. lia.
Qed.

Lemma drop_last_batches size bs :
  0 < bs ->
  length (batches (drop_last_loader size bs))
    = loader_len (drop_last_loader size bs) /\
  loader_len (drop_last_loader size bs) = (size / Z.to_nat bs)%nat /\
  Forall (fun b => length b = Z.to_nat bs) (batches (drop_last_loader size bs)).
Proof.
  intros Hbs. unfold batches, loader_len, drop_last_loader.
  cbn [dl_size dl_batch_size dl_drop_last].
  destruct (batch_sampler_drop_last (Z.to_nat bs) (seq 0 size) [])
    as [Hl Hf]; [cbn; lia|].
  rewrite Hl, length_seq. cbn [length Nat.add]. now repeat split.
Qed.

Lemma py_truediv_Ok x n tr r :
  py_truediv x n = (tr, Ok r) ->
  n <> 0 /\ r = Float.div x (Float.of_int n) /\ tr = [].
Proof.
  unfold py_truediv. destruct (n =? 0) eqn:E; [discriminate|].
  apply Z.eqb_neq in E. now intros [= <- <-].
Qed.

Section Totals.

Variable W : Collaborators.
Variable args : Args.

Lemma flush_window_keeps epoch dl idx s tr s' :
  flush_window args epoch dl idx s = (tr, Ok s') ->
  matches s' = matches s /\ loss_value s' = loss_value s /\
  y_true s' = y_true s /\ y_pred s' = y_pred s.
Proof.
  unfold flush_window. intros H. inv_bind H r Hr H.
  destruct (r =? 0).
  - inv_bind H a1 H1 H. inv_bind H a2 H2 H. inv_bind H a3 H3 H.
    inv_bind H u1 Hu1 H. inv_bind H u2 Hu2 H.
    injection H as _ <-. now repeat split.
  - injection H as _ <-. now repeat split.
Qed.

Lemma train_loop_matches epoch i dl bs : forall idx s tr s',
  train_loop W args epoch i dl idx bs s = (tr, Ok s') ->
  matches s' =
  fold_left Z.add
    (imap (fun j b =>
             let out := forward_train W epoch i (idx + j) b in
             count_matches (preds out) (labels out)) bs)
    (matches s).
Proof.
  induction bs as [|b rest IH]; intros idx s tr s' H.
  - now injection H as _ <-.
  - cbn [train_loop] in H. inv_bind H u0 Hu0 H. cbv zeta in H.
    inv_bind H u Hu H. inv_bind H s2 Hs2 H.
    apply flush_window_keeps in Hs2 as (Hm & _).
    apply IH in H. rewrite H, Hm. cbn [imap fold_left matches].
    rewrite Nat.add_0_r. f_equal. apply imap_ext.
    intros j x _. unfold compose. now rewrite Nat.add_succ_r.
Qed.

Lemma val_loop_items epoch i bs : forall idx s tr s',
  val_loop W args epoch i idx bs s = (tr, Ok s') ->
  val_acc_items s' =
  val_acc_items s ++
    imap (fun j b =>
            let out := forward_val W epoch i (idx + j) b in
            count_matches (labels out) (preds out)) bs.
Proof.
  induction bs as [|b rest IH]; intros idx s tr s' H.
  - injection H as _ <-. now rewrite app_nil_r.
  - cbn [val_loop] in H. inv_bind H u0 Hu0 H. cbv zeta in H.
    inv_bind H fig Hfig H.
    apply IH in H. rewrite H. cbn [imap val_acc_items].
    rewrite Nat.add_0_r, <- app_assoc. cbn [app]. do 2 f_equal.
    apply imap_ext.
    intros j x _. unfold compose. now rewrite Nat.add_succ_r.
Qed.

Lemma train_epoch_acc epoch i dl tr r :
  train_epoch W args epoch i dl = (tr, Ok r) ->
  train_acc r =
  Float.div (Float.of_int (train_matches W epoch i dl))
    (Float.of_int (batch_size args * Z.of_nat (loader_len dl))).
Proof.
  unfold train_epoch. intros H. inv_bind H s Hs H.
  inv_bind H tl0 Htl H. inv_bind H ta Hta H.
  injection H as _ <-. cbn [train_acc].
  apply py_truediv_Ok in Hta as (_ & -> & _).
  apply train_loop_matches in Hs. rewrite Hs. reflexivity.
Qed.

Lemma validate_acc epoch i dl tr r :
  validate W args epoch i dl = (tr, Ok r) ->
  val_acc r =
  Float.div (Float.of_int (val_matches W epoch i dl))
    (Float.of_int (valid_batch_size args * Z.of_nat (loader_len dl))).
Proof.
  unfold validate. intros H. inv_bind H s Hs H.
  injection H as _ <-. cbn [val_acc val_aggregate].
  apply val_loop_items in Hs. rewrite Hs. reflexivity.
Qed.

End Totals.

(** C5: with drop-last, a set of [size] samples gives [size / batch_size]
    batches, all full, and the epoch accuracy of the training loop and of
    the validation loop is the total of correct predictions divided by
    batch size times number of batches; seventeen samples in batches of
    five give three batches, the last two samples are left out, and the
    denominator is 15. *)
Theorem drop_last_batching (W : Collaborators) (args : Args)
    (epoch i train_size val_size : nat) :
  0 < batch_size args ->
  0 < valid_batch_size args ->
  let train_loader := drop_last_loader train_size (batch_size args) in
  let val_loader := drop_last_loader val_size (valid_batch_size args) in
  (length (batches train_loader) = loader_len train_loader /\
   loader_len train_loader = (train_size / Z.to_nat (batch_size args))%nat /\
   Forall (fun b => length b = Z.to_nat (batch_size args))
     (batches train_loader)) /\
  (length (batches val_loader) = loader_len val_loader /\
   loader_len val_loader = (val_size / Z.to_nat (valid_batch_size args))%nat /\
   Forall (fun b => length b = Z.to_nat (valid_batch_size args))
     (batches val_loader)) /\
  (forall tr r,
     train_epoch W args epoch i train_loader = (tr, Ok r) ->
     train_acc r =
     Float.div (Float.of_int (train_matches W epoch i train_loader))
       (Float.of_int
          (batch_size args * Z.of_nat (loader_len train_loader)))) /\
  (forall tr r,
     validate W args epoch i val_loader = (tr, Ok r) ->
     val_acc r =
     Float.div (Float.of_int (val_matches W epoch i val_loader))
       (Float.of_int
          (valid_batch_size args * Z.of_nat (loader_len val_loader)))) /\
  (loader_len (drop_last_loader 17 5) = 3%nat /\
   batches (drop_last_loader 17 5)
     = [[0; 1; 2; 3; 4]; [5; 6; 7; 8; 9]; [10; 11; 12; 13; 14]]%nat /\
   5 * Z.of_nat (loader_len (drop_last_loader 17 5)) = 15).
Proof.
  intros Hbs Hvbs. cbv zeta.
  split; [now apply drop_last_batches|].
  split; [now apply drop_last_batches|].
  split; [intros tr r; apply train_epoch_acc|].
  split; [intros tr r; apply validate_acc|].
  repeat apply conj; reflexivity.
Qed.

Lemma drop_last_batching_witness :
  train_acc (match outcome (train_epoch (example_world never_stop)
                              args_batch_5 0 0 (drop_last_loader 17 5)) with
             | Ok r => r
             | Raise _ => {| train_loss := Float.zero; train_acc := Float.zero;
                             train_f1 := Float.zero |}
             end)
  = Float.div (Float.of_int 15) (Float.of_int 15).
Proof.
  refine (proj1 (proj2 (proj2
    (drop_last_batching (example_world never_stop) args_batch_5 0 0 17 17
       _ _))) _ _ _).
  - reflexivity.
  - reflexivity.
  - vm_compute. reflexivity.
Defined.

(** ** The metric window *)

Lemma scalars_app t1 t2 : scalars (t1 ++ t2) = scalars t1 ++ scalars t2.
Proof. apply omap_app. Qed.

Lemma scalars_cons ev t : scalars (ev :: t) = scalars [ev] ++ scalars t.
Proof. exact (scalars_app [ev] t). Qed.

Lemma window_loss_snoc w o :
  window_loss (w ++ [o]) = Float.add (window_loss w) (loss o).
Proof. unfold window_loss. now rewrite fold_left_app. Qed.

Lemma window_matches_snoc w o :
  window_matches (w ++ [o])
  = window_matches w + count_matches (preds o) (labels o).
Proof. unfold window_matches. now rewrite fold_left_app. Qed.

Lemma flush_test_hit (q N : nat) (idx : nat) :
  (0 < N)%nat -> (idx + 1 = (q + 1) * N)%nat ->
  (Z.of_nat idx + 1) mod Z.of_nat N = 0.
Proof.
  intros HN E.
  replace (Z.of_nat idx + 1) with (Z.of_nat (q + 1) * Z.of_nat N) by lia.
  apply Z_mod_mult.
Qed.

Lemma flush_test_miss (q r N : nat) (idx : nat) :
  (idx = q * N + r)%nat -> (r + 1 < N)%nat ->
  (Z.of_nat idx + 1) mod Z.of_nat N <> 0.
Proof.
  intros E Hr.
  replace (Z.of_nat idx + 1)
    with (Z.of_nat (r + 1) + Z.of_nat q * Z.of_nat N) by lia.
  rewrite Z_mod_plus_full, Z.mod_small by lia. lia.
Qed.

Lemma flush_window_eq args epoch dl idx s :
log_interval args <> 0 -> batch_size args <> 0 ->
  flush_window args epoch dl idx s =
  if (Z.of_nat idx + 1) mod log_interval args =? 0 then
    ([AddScalar "Train/loss"
        (Float.div (temp_loss_value s) (Float.of_int (log_interval args)))
        (Z.of_nat epoch * Z.of_nat (loader_len dl) + Z.of_nat idx);
      AddScalar "Train/accuracy"
        (Float.div
           (Float.div (Float.of_int (temp_matches s))
              (Float.of_int (batch_size args)))
           (Float.of_int (log_interval args)))
        (Z.of_nat epoch * Z.of_nat (loader_len dl) + Z.of_nat idx)],
     Ok {| loss_value := loss_value s; matches := matches s;
           temp_loss_value := Float.zero; temp_matches := 0;
           y_true := y_true s; y_pred := y_pred s |})
  else ([], Ok s).
Proof.
  unfold flush_window, py_mod, py_int_truediv, py_truediv.
  destruct (log_interval args =? 0) eqn:E1; [lia|].
  destruct (batch_size args =? 0) eqn:E2; [lia|].
  rewrite bind_ret_l.
  destruct (_ mod _ =? 0); [|reflexivity].
  now rewrite !bind_ret_l, !bind_emit.
Qed.

Section Window.

Variable W : Collaborators.
Variable args : Args.
Hypothesis interval_pos : 0 < log_interval args.
Hypothesis batch_pos : 0 < batch_size args.

Let N := Z.to_nat (log_interval args).

Lemma train_loop_scalars epoch i dl rest : forall idx q r s,
  drop idx (batches dl) = rest ->
  (idx = q * N + r)%nat -> (r < N)%nat ->
  temp_loss_value s
    = window_loss (take r (drop (q * N) (train_outs W epoch i dl))) ->
  temp_matches s
    = window_matches (take r (drop (q * N) (train_outs W epoch i dl))) ->
  scalars (trace_of (train_loop W args epoch i dl idx rest s))
  = concat (map (flush_events args epoch (loader_len dl)
                   (train_outs W epoch i dl))
              (seq (q + 1) (length (batches dl) / N - q))).
Proof.
  assert (HN : (0 < N)%nat) by (subst N; lia).
  assert (HNz : Z.of_nat N = log_interval args) by (subst N; lia).
  induction rest as [|b rest' IH]; intros idx q r s Hd Hi Hr Hl Hm.
  - assert (Hlen : (length (batches dl) <= idx)%nat).
    { apply drop_nil_inv in Hd. exact Hd. }
    assert (Hq : (length (batches dl) / N <= q)%nat).
    { enough (length (batches dl) / N < q + 1)%nat by lia.
      apply Nat.Div0.div_lt_upper_bound. nia. }
    replace (length (batches dl) / N - q)%nat with 0%nat by lia.
    reflexivity.
  - assert (Hb : batches dl !! idx = Some b).
    { rewrite <- (Nat.add_0_r idx), <- lookup_drop, Hd. reflexivity. }
    assert (Hd' : drop (S idx) (batches dl) = rest').
    { rewrite (drop_S _ _ _ Hb) in Hd. now injection Hd. }
    assert (Ho : drop (q * N) (train_outs W epoch i dl) !! r
                 = Some (forward_train W epoch i idx b)).
    { rewrite lookup_drop, <- Hi. unfold train_outs.
      rewrite list_lookup_imap, Hb. reflexivity. }
    cbn [train_loop]. rewrite bind_emit. cbn [trace_of fst].
    rewrite scalars_cons.
    change (scalars [ModelForward epoch i idx]) with
      (@nil (string * float * Z)).
    cbn [app]. cbv zeta. rewrite bind_emit. cbn [trace_of fst].
    rewrite bind_trace, flush_window_eq by lia.
    cbn [temp_loss_value temp_matches loss_value matches y_true y_pred].
    destruct (_ mod _ =? 0) eqn:E.
    + apply Z.eqb_eq in E.
      assert (Hr1 : (r + 1 = N)%nat).
      { destruct (decide (r + 1 < N)%nat) as [Hlt|Hge]; [|lia].
        exfalso. rewrite <- HNz in E.
        exact (flush_test_miss q r N idx Hi Hlt E). }
      assert (Hlt : (idx < length (batches dl))%nat)
        by (eapply lookup_lt_Some; eauto).
      assert (Hq : (q + 1 <= length (batches dl) / N)%nat).
      { apply Nat.div_le_lower_bound; nia. }
      replace (length (batches dl) / N - q)%nat
        with (S (length (batches dl) / N - (q + 1)))%nat by lia.
      cbn [seq map concat outcome snd trace_of fst].
      rewrite scalars_cons, scalars_app.
      rewrite (IH (S idx) (q + 1)%nat 0%nat); [| assumption | nia | lia
                                               | reflexivity | reflexivity ].
      replace (S (q + 1)) with (q + 1 + 1)%nat by lia.
      change (scalars [OptimizerStep epoch i idx]) with
        (@nil (string * float * Z)).
      cbn [app]. f_equal. unfold flush_events, window. cbn [scalars omap].
      fold N. replace (q + 1 - 1)%nat with q by lia.
      replace (take N (drop (q * N) (train_outs W epoch i dl)))
        with (take (S r) (drop (q * N) (train_outs W epoch i dl)))
        by (f_equal; lia).
      rewrite (take_S_r _ _ _ Ho), window_loss_snoc, window_matches_snoc.
      rewrite <- Hl, <- Hm. unfold flush_step.
      replace (Z.of_nat epoch * Z.of_nat (loader_len dl) + Z.of_nat idx)
        with (Z.of_nat epoch * Z.of_nat (loader_len dl)
              + (Z.of_nat (q + 1) * log_interval args - 1)) by nia.
      reflexivity.
    + apply Z.eqb_neq in E.
      assert (Hr1 : (r + 1 < N)%nat).
      { destruct (decide (r + 1 < N)%nat) as [Hlt|Hge]; [assumption|].
        exfalso. apply E. rewrite <- HNz.
        apply (flush_test_hit q N idx HN). nia. }
      cbn [outcome snd trace_of fst app].
      rewrite scalars_cons. cbn [scalars omap app].
      apply (IH (S idx) q (S r)); [assumption | lia | lia | |].
      * cbn [temp_loss_value].
        now rewrite (take_S_r _ _ _ Ho), window_loss_snoc, <- Hl.
      * cbn [temp_matches].
        now rewrite (take_S_r _ _ _ Ho), window_matches_snoc, <- Hm.
Qed.

End Window.

Lemma steps_of_flushes args epoch len outs tag ks :
  tag = "Train/loss"%string \/ tag = "Train/accuracy"%string ->
  steps_of tag (concat (map (flush_events args epoch len outs) ks))
  = map (flush_step args epoch len) ks.
Proof.
  intros Htag. induction ks as [|k rest IH]; [reflexivity|].
  cbn [map concat]. unfold steps_of in *. rewrite omap_app, IH.
  destruct Htag as [-> | ->]; reflexivity.
Qed.

Lemma sorted_map_seq (f : nat -> Z) n : forall a,
  (forall j k, (j < k)%nat -> f j < f k) ->
  StronglySorted Z.lt (map f (seq a n)).
Proof.
  induction n as [|n IH]; intros a Hf; [constructor|].
  cbn [seq map]. constructor; [now apply IH|].
  apply List.Forall_forall. intros y Hy.
  apply in_map_iff in Hy as (k & <- & Hk). apply in_seq in Hk.
  apply Hf. lia.
Qed.

(** C6: in a training epoch with [N = log_interval > 0], after every [N]
    batches the logger receives the mean loss of the window (its summed
    loss over [N]) and its mean accuracy (its summed correct count over the
    batch size over [N]), both under the step
    [epoch * batches_per_epoch + batch_index]; every window is summed from
    zero; the steps go up strictly, within the epoch and on to the next. *)
Theorem metric_window_flush (W : Collaborators) (args : Args)
    (epoch i size : nat) :
  0 < log_interval args ->
  0 < batch_size args ->
  let dl := drop_last_loader size (batch_size args) in
  let logged e := scalars (trace_of (train_epoch W args e i dl)) in
  logged epoch = expected_scalars W args epoch i dl /\
  forall tag, tag = "Train/loss"%string \/ tag = "Train/accuracy"%string ->
    steps_of tag (logged epoch)
    = map (fun k => Z.of_nat epoch * Z.of_nat (loader_len dl)
                    + (Z.of_nat k * log_interval args - 1))
          (seq 1 (loader_len dl / Z.to_nat (log_interval args))) /\
    StronglySorted Z.lt
      (steps_of tag (logged epoch) ++ steps_of tag (logged (S epoch))).
Proof.
  intros HN Hbs dl logged.
  assert (Hlog : forall e, logged e = expected_scalars W args e i dl).
  { intros e. unfold logged, train_epoch.
    rewrite bind_trace, scalars_app.
    rewrite (train_loop_scalars W args HN Hbs e i dl _ 0 0 0)%nat;
      [| reflexivity | lia | lia | reflexivity | reflexivity ].
    replace (scalars _) with (@nil (string * float * Z)).
    - rewrite app_nil_r. unfold expected_scalars. do 3 f_equal. lia.
    - destruct (outcome _) as [s|]; [|reflexivity].
      rewrite bind_trace, py_truediv_trace.
      destruct (outcome _); [|reflexivity].
      unfold py_int_truediv. rewrite bind_trace, py_truediv_trace.
      now destruct (outcome _). }
  destruct (drop_last_batches size (batch_size args) Hbs) as (Hlen & _ & _).
  fold dl in Hlen.
  assert (Hsteps : forall e tag,
    tag = "Train/loss"%string \/ tag = "Train/accuracy"%string ->
    steps_of tag (logged e)
    = map (flush_step args e (loader_len dl))
        (seq 1 (loader_len dl / Z.to_nat (log_interval args)))).
  { intros e tag Htag. rewrite Hlog. unfold expected_scalars.
    rewrite Hlen. now apply steps_of_flushes. }
  split; [apply Hlog|]. intros tag Htag. split; [now apply Hsteps|].
  rewrite !Hsteps by assumption.
  apply StronglySorted_app_2.
  - intros x1 x2 H1 H2. apply list_elem_of_In in H1, H2.
    apply in_map_iff in H1 as (k1 & <- & Hk1).
    apply in_map_iff in H2 as (k2 & <- & Hk2).
    apply in_seq in Hk1, Hk2. unfold flush_step.
    assert (Hd : (Z.to_nat (log_interval args)
                  * (loader_len dl / Z.to_nat (log_interval args))
                  <= loader_len dl)%nat)
      by (apply Nat.Div0.mul_div_le).
    nia.
  - apply sorted_map_seq. intros j k Hjk. unfold flush_step. nia.
  - apply sorted_map_seq. intros j k Hjk. unfold flush_step. nia.
Qed.

Lemma metric_window_flush_witness :
  scalars (trace_of (train_epoch (example_world never_stop) example_args
                       1 0 (drop_last_loader 40 16)))
  = [("Train/loss"%string, Float.tenths 5, 3);
     ("Train/accuracy"%string, Float.of_int 1, 3)].
Proof.
  refine (eq_trans
    (proj1 (metric_window_flush (example_world never_stop) example_args
              1 0 40 _ _)) _).
  - reflexivity.
  - reflexivity.
  - vm_compute. reflexivity.
Defined.

(** ** The figure and the validation metrics *)

Lemma trace_nil_eq {A} (m : M A) : trace_of m = [] -> m = ([], outcome m).
Proof. destruct m as [t r]. cbn. now intros ->. Qed.

Lemma val_extend_snoc s o outs :
  val_extend
    {| val_loss_items := val_loss_items s ++ [loss o];
       val_acc_items := val_acc_items s ++ [count_matches (labels o) (preds o)];
       figure := figure s;
       val_y_true := val_y_true s ++ labels o;
       val_y_pred := val_y_pred s ++ preds o |} outs
  = val_extend s (o :: outs).
Proof.
  unfold val_extend. cbn [val_loss_items val_acc_items figure val_y_true
                          val_y_pred map concat].
  now rewrite <- !app_assoc.
Qed.

Section Figure.

Variable W : Collaborators.
Variable args : Args.

Lemma val_loop_with_figure epoch i rest : forall idx s f,
  figure s = Some f ->
  val_loop W args epoch i idx rest s
  = (map (ModelForward epoch i) (seq idx (length rest)),
     Ok (val_extend s
           (imap (fun j => forward_val W epoch i (idx + j)) rest))).
Proof.
  induction rest as [|b rest IH]; intros idx s f Hf.
  - cbn [val_loop imap length seq map]. unfold val_extend, ret.
    cbn [map concat]. rewrite !app_nil_r. now destruct s.
  - cbn [val_loop]. rewrite bind_emit, Hf, bind_ret_l.
    erewrite IH by reflexivity.
    cbn [trace_of fst outcome snd length seq map imap].
    rewrite Nat.add_0_r.
    rewrite <- val_extend_snoc. cbn [figure]. rewrite Hf.
    rewrite (imap_ext (fun j => forward_val W epoch i (S idx + j))
               ((fun j => forward_val W epoch i (idx + j)) ∘ S));
      [reflexivity|].
    intros j x _. unfold compose. now rewrite Nat.add_succ_r.
Qed.

Lemma validate_eq epoch i dl :
  validate W args epoch i dl
  = (val_forwards W args epoch i dl,
     outcome (fig <- first_figure W args epoch i dl ;;
              ret (metrics_of W args epoch i dl fig))).
Proof.
  unfold validate, val_forwards, first_figure, metrics_of, val_outs.
  destruct (batches dl) as [|b rest].
  - now rewrite !bind_ret_l.
  - cbn [val_loop]. cbn [figure val_sums_init]. cbv zeta.
    rewrite bind_emit.
    pose proof (grid_image_trace (random_choices W epoch i) (length b)
                  (labels (forward_val W epoch i 0 b))
                  (preds (forward_val W epoch i 0 b)) 16 (grid_shuffle args))
      as Ht.
    destruct (grid_image (random_choices W epoch i) (length b)
                (labels (forward_val W epoch i 0 b))
                (preds (forward_val W epoch i 0 b)) 16 (grid_shuffle args))
      as [tg [f|e]]; cbn [trace_of fst] in Ht; subst tg.
    + change (@pair (list event) (result Figure) [] (Ok f)) with (ret f).
      rewrite !bind_ret_l.
      erewrite val_loop_with_figure by reflexivity.
      cbn [trace_of fst outcome snd]. rewrite bind_ret_l'.
      cbn [ret trace_of fst outcome snd length seq map].
      rewrite app_nil_r. reflexivity.
    + reflexivity.
Qed.

End Figure.

(** C7, as amended: the validation metrics come from the batch results
    alone and are the same whatever the figure is; they are finalized when
    the visualization step of the first batch returns (or there is no
    batch), after the forward passes of all the batches, and an exception
    raised by that step leaves the validation loop after the first forward
    pass, with no metrics. *)
Theorem figure_failure_aborts_validation (W : Collaborators) (args : Args)
    (epoch i : nat) (dl : DataLoader) :
  validate W args epoch i dl
    = (val_forwards W args epoch i dl,
       outcome (fig <- first_figure W args epoch i dl ;;
                ret (metrics_of W args epoch i dl fig))) /\
  (forall fig, outcome (first_figure W args epoch i dl) = Ok fig ->
     outcome (validate W args epoch i dl)
       = Ok (metrics_of W args epoch i dl fig)) /\
  (forall e, outcome (first_figure W args epoch i dl) = Raise e ->
     outcome (validate W args epoch i dl) = Raise e) /\
  (forall fig fig',
     val_loss (metrics_of W args epoch i dl fig)
       = val_loss (metrics_of W args epoch i dl fig') /\
     val_acc (metrics_of W args epoch i dl fig)
       = val_acc (metrics_of W args epoch i dl fig') /\
     val_f1 (metrics_of W args epoch i dl fig)
       = val_f1 (metrics_of W args epoch i dl fig')).
Proof.
  split; [apply validate_eq|]. split; [|split].
  - intros fig H. rewrite validate_eq. cbn [outcome snd].
    now rewrite bind_outcome, H.
  - intros e H. rewrite validate_eq. cbn [outcome snd].
    now rewrite bind_outcome, H.
  - intros fig fig'. repeat split.
Qed.

Lemma figure_failure_aborts_validation_witness :
  outcome (validate (example_world never_stop) args_val_batch_8 0 0
             (drop_last_loader 40 8)) = Raise AssertionError /\
  outcome (validate (example_world never_stop) example_args 0 0
             (drop_last_loader 40 16))
    = Ok (metrics_of (example_world never_stop) example_args 0 0
            (drop_last_loader 40 16) (Some (replicate 16 (1, 1)))).
Proof.
  split.
  - refine (proj1 (proj2 (proj2
      (figure_failure_aborts_validation (example_world never_stop)
         args_val_batch_8 0 0 (drop_last_loader 40 8)))) AssertionError _).
    vm_compute. reflexivity.
  - refine (proj1 (proj2
      (figure_failure_aborts_validation (example_world never_stop)
         example_args 0 0 (drop_last_loader 40 16))) _ _).
    vm_compute. reflexivity.
Defined.

(** With validation batches of eight the assertion of [grid_image] fails
    on the first batch, and the validation loop raises instead of
    returning metrics. *)
Lemma figure_failure_loses_metrics :
  let W := example_world never_stop in
  let dl := drop_last_loader 40 8 in
  outcome (first_figure W args_val_batch_8 0 0 dl) = Raise AssertionError /\
  outcome (validate W args_val_batch_8 0 0 dl) = Raise AssertionError.
Proof. split; vm_compute; reflexivity. Qed.

(** ** The assertion of [grid_image] in a run *)

Lemma bind_Raise {A B} (m : M A) (k : A -> M B) t e :
  m = (t, Raise e) -> bind m k = (t, Raise e).
Proof. now intros ->. Qed.

Lemma no_assert_bind {A B} (m : M A) (k : A -> M B) :
  no_assert m -> (forall a, no_assert (k a)) -> no_assert (bind m k).
Proof.
  unfold no_assert. intros Hm Hk. rewrite bind_outcome.
  destruct (outcome m) as [a|e]; [apply Hk|].
  intros [= ->]. now apply Hm.
Qed.

Lemma no_assert_bind_ok {A B} (m : M A) (k : A -> M B) :
  no_assert m -> (forall a, outcome m = Ok a -> no_assert (k a)) ->
  no_assert (bind m k).
Proof.
  unfold no_assert. intros Hm Hk. rewrite bind_outcome.
  destruct (outcome m) as [a|e]; [now apply Hk|].
  intros [= ->]. now apply Hm.
Qed.

Lemma no_assert_ret {A} (a : A) : no_assert (ret a).
Proof. discriminate. Qed.

Lemma no_assert_emit ev : no_assert (emit ev).
Proof. discriminate. Qed.

Lemma no_assert_getitem {A} (l : list A) i : no_assert (getitem l i).
Proof. unfold getitem. destruct (l !! i); discriminate. Qed.

Lemma no_assert_setitem {A} (l : list A) i v : no_assert (setitem l i v).
Proof. unfold setitem. destruct (_ <? _)%nat; discriminate. Qed.

Lemma no_assert_py_truediv x n : no_assert (py_truediv x n).
Proof. unfold py_truediv. destruct (n =? 0); discriminate. Qed.

Lemma no_assert_py_mod a b : no_assert (py_mod a b).
Proof. unfold py_mod. destruct (b =? 0); discriminate. Qed.

Lemma no_assert_subplots gts ps choices : no_assert (subplots gts ps choices).
Proof.
  induction choices as [|c rest IH]; [discriminate|].
  cbn [subplots].
  apply no_assert_bind; [apply no_assert_getitem|intros gt].
  apply no_assert_bind; [apply no_assert_getitem|intros p].
  apply no_assert_bind; [exact IH|intros fig]. discriminate.
Qed.

Lemma no_assert_grid_image rnd bsz gts ps n shuffle :
  (n <= bsz)%nat -> no_assert (grid_image rnd bsz gts ps n shuffle).
Proof.
  intros Hn. unfold grid_image. apply Nat.leb_le in Hn. rewrite Hn.
  apply no_assert_bind; [discriminate|intros _]. apply no_assert_subplots.
Qed.

Lemma grid_image_small rnd bsz gts ps n shuffle :
  (bsz < n)%nat ->
  grid_image rnd bsz gts ps n shuffle = ([], Raise AssertionError).
Proof.
  intros Hn. unfold grid_image. apply Nat.leb_gt in Hn. now rewrite Hn.
Qed.

Lemma no_assert_checkpoint epoch i f1 best scores :
  no_assert (checkpoint epoch i f1 best scores).
Proof.
  unfold checkpoint. apply no_assert_bind.
  - destruct (Float.ltb best f1); [|discriminate].
    apply no_assert_bind; [discriminate|intros _]. apply no_assert_setitem.
  - intros s. apply no_assert_bind; discriminate.
Qed.

Section Assertion.

Variable W : Collaborators.
Variable args : Args.

Lemma make_loaders_eq slots :
  0 < batch_size args -> 0 < valid_batch_size args ->
  make_loaders W args slots
  = ret (loaders_of (train_set_len W) (batch_size args) slots,
         loaders_of (val_set_len W) (valid_batch_size args) slots).
Proof.
  intros Hb Hv. induction slots as [|i rest IH]; [reflexivity|].
  cbn [make_loaders]. unfold new_DataLoader.
  destruct (batch_size args <=? 0) eqn:E1; [lia|].
  destruct (valid_batch_size args <=? 0) eqn:E2; [lia|].
  now rewrite !bind_ret_l, IH, bind_ret_l.
Qed.

Lemma no_assert_make_loaders slots : no_assert (make_loaders W args slots).
Proof.
  induction slots as [|i rest IH]; [discriminate|].
  cbn [make_loaders]. unfold new_DataLoader.
  apply no_assert_bind; [destruct (_ <=? _); discriminate|intros tl0].
  apply no_assert_bind; [destruct (_ <=? _); discriminate|intros vl0].
  apply no_assert_bind; [exact IH|intros ls]. discriminate.
Qed.

Lemma no_assert_flush_window epoch dl idx s :
  no_assert (flush_window args epoch dl idx s).
Proof.
  unfold flush_window.
  apply no_assert_bind; [apply no_assert_py_mod|intros r].
  destruct (r =? 0); [|discriminate].
  apply no_assert_bind; [apply no_assert_py_truediv|intros a1].
  apply no_assert_bind; [apply no_assert_py_truediv|intros a2].
  apply no_assert_bind; [apply no_assert_py_truediv|intros a3].
  apply no_assert_bind; [discriminate|intros _].
  apply no_assert_bind; discriminate.
Qed.

Lemma no_assert_train_loop epoch i dl bs : forall idx s,
  no_assert (train_loop W args epoch i dl idx bs s).
Proof.
  induction bs as [|b rest IH]; intros idx s; [discriminate|].
  cbn [train_loop]. apply no_assert_bind; [discriminate|intros _].
  cbv zeta. apply no_assert_bind; [discriminate|intros _].
  apply no_assert_bind; [apply no_assert_flush_window|intros s2]. apply IH.
Qed.

Lemma no_assert_train_epoch epoch i dl :
  no_assert (train_epoch W args epoch i dl).
Proof.
  unfold train_epoch. apply no_assert_bind.
  - apply no_assert_train_loop.
  - intros s. apply no_assert_bind; [apply no_assert_py_truediv|intros a1].
    apply no_assert_bind; [apply no_assert_py_truediv|intros a2].
    discriminate.
Qed.

Lemma no_assert_val_loop epoch i bs : forall idx s,
  Forall (fun b => (16 <= length b)%nat) bs ->
  no_assert (val_loop W args epoch i idx bs s).
Proof.
  induction bs as [|b rest IH]; intros idx s Hbs; [discriminate|].
  apply Forall_cons in Hbs as [Hb Hrest]. cbn [val_loop].
  apply no_assert_bind; [discriminate|intros _]. cbv zeta.
  apply no_assert_bind.
  - destruct (figure s); [discriminate|].
    apply no_assert_bind; [now apply no_assert_grid_image|discriminate].
  - intros fig. now apply IH.
Qed.

Lemma train_loop_Ok epoch i dl bs :
  log_interval args <> 0 -> batch_size args <> 0 ->
  forall idx s, exists s',
    outcome (train_loop W args epoch i dl idx bs s) = Ok s'.
Proof.
  intros HN Hb. induction bs as [|b rest IH]; intros idx s.
  - now exists s.
  - cbn [train_loop]. rewrite bind_emit. cbn [outcome snd]. cbv zeta.
    rewrite bind_emit. cbn [outcome snd].
    rewrite bind_outcome, flush_window_eq by assumption.
    destruct (_ mod _ =? 0); cbn [outcome snd]; apply IH.
Qed.

Lemma train_epoch_Ok epoch i dl :
  log_interval args <> 0 -> batch_size args <> 0 ->
  loader_len dl <> 0%nat ->
  exists r, outcome (train_epoch W args epoch i dl) = Ok r.
Proof.
  intros HN Hb Hlen. unfold train_epoch.
  destruct (train_loop_Ok epoch i dl (batches dl) HN Hb 0%nat train_sums_init)
    as [s Hs].
  rewrite bind_outcome, Hs. unfold py_int_truediv, py_truediv.
  destruct (Z.of_nat (loader_len dl) =? 0) eqn:E1; [lia|].
  destruct (batch_size args * Z.of_nat (loader_len dl) =? 0) eqn:E2; [nia|].
  rewrite !bind_ret_l. eauto.
Qed.

End Assertion.

Section AssertionRun.

Variable W : Collaborators.
Variable args : Args.

Lemma no_assert_slot_step tls vls epoch i st :
  Forall (fun vl => Forall (fun b => (16 <= length b)%nat) (batches vl)) vls ->
  no_assert (slot_step W args tls vls epoch i st).
Proof.
  intros Hvls. unfold slot_step.
  apply no_assert_bind; [apply no_assert_getitem|intros a].
  apply no_assert_bind; [apply no_assert_getitem|intros a0].
  apply no_assert_bind; [apply no_assert_getitem|intros a1].
  apply no_assert_bind; [discriminate|intros _].
  apply no_assert_bind; [apply no_assert_getitem|intros trl].
  apply no_assert_bind; [apply no_assert_train_epoch|intros trm].
  apply no_assert_bind; [discriminate|intros _].
  apply no_assert_bind_ok; [apply no_assert_getitem|intros vl E].
  destruct (getitem vls i) as [t res] eqn:E'. cbn in E. subst res.
  apply getitem_Ok in E' as [E _].
  apply no_assert_bind.
  { unfold validate. apply no_assert_bind; [|discriminate].
    apply no_assert_val_loop.
    exact (proj1 (Forall_lookup _ _) Hvls _ _ E). }
  intros v.
  apply no_assert_bind; [apply no_assert_setitem|intros accs].
  apply no_assert_bind; [apply no_assert_setitem|intros losses].
  apply no_assert_bind; [apply no_assert_checkpoint|intros scores].
  repeat (apply no_assert_bind; [discriminate|intros _]).
  discriminate.
Qed.

Lemma no_assert_slot_loop tls vls epoch slots : forall st,
  Forall (fun vl => Forall (fun b => (16 <= length b)%nat) (batches vl)) vls ->
  no_assert (slot_loop W args tls vls epoch slots st).
Proof.
  induction slots as [|i rest IH]; intros st Hvls; [discriminate|].
  cbn [slot_loop].
  apply no_assert_bind; [now apply no_assert_slot_step|intros r].
  destruct (snd r); [discriminate|now apply IH].
Qed.

Lemma no_assert_epoch_loop tls vls es : forall st,
  Forall (fun vl => Forall (fun b => (16 <= length b)%nat) (batches vl)) vls ->
  no_assert (epoch_loop W args tls vls es st).
Proof.
  induction es as [|e rest IH]; intros st Hvls; [discriminate|].
  cbn [epoch_loop].
  apply no_assert_bind; [now apply no_assert_slot_loop|intros st'].
  now apply IH.
Qed.

Lemma no_assert_run n :
  16 <= valid_batch_size args -> no_assert (run_epochs W args n).
Proof.
  intros Hv. unfold run_epochs.
  destruct (Z.ltb_spec 0 (batch_size args)) as [Hb|Hb].
  - rewrite make_loaders_eq, bind_ret_l by lia. cbn [fst snd].
    apply no_assert_epoch_loop. unfold loaders_of.
    apply List.Forall_forall. intros vl Hvl.
    apply in_map_iff in Hvl as (i & <- & _).
    destruct (drop_last_batches (val_set_len W i) (valid_batch_size args))
      as (_ & _ & Hf); [lia|].
    eapply Forall_impl; [exact Hf|]. cbn. intros b ->. lia.
  - cbn [seq make_loaders]. unfold new_DataLoader.
    destruct (batch_size args <=? 0) eqn:E; [discriminate|lia].
Qed.

Lemma validate_small_batch epoch i vl b rest :
  batches vl = b :: rest -> (length b < 16)%nat ->
  validate W args epoch i vl
  = ([ModelForward epoch i 0], Raise AssertionError).
Proof.
  intros Hb Hlen. unfold validate. rewrite Hb.
  cbn [val_loop val_sums_init figure]. cbv zeta.
  now rewrite bind_emit, grid_image_small.
Qed.

Lemma slot_step_first_assert tls vls tl0 vl b rest :
  log_interval args <> 0 -> batch_size args <> 0 ->
  tls !! 0%nat = Some tl0 -> loader_len tl0 <> 0%nat ->
  vls !! 0%nat = Some vl -> batches vl = b :: rest -> (length b < 16)%nat ->
  outcome (slot_step W args tls vls 0 0 best_state_init)
    = Raise AssertionError /\
  phases (trace_of (slot_step W args tls vls 0 0 best_state_init))
    = [(0, 0, PhTrain); (0, 0, PhValidate)]%nat.
Proof.
  intros HN Hbs Htl Hlen Hvl Hb Hsmall. unfold slot_step.
  change (getitem (best_val_accs best_state_init) 0) with (ret Float.zero).
  change (getitem (best_val_losses best_state_init) 0) with (ret Float.inf).
  change (getitem (best_f1_scores best_state_init) 0) with (ret Float.zero).
  rewrite !bind_ret_l, (bind_emit (ModelTrain 0 0)).
  rewrite (getitem_Some _ _ _ Htl), bind_ret_l.
  destruct (train_epoch_Ok W args 0 0 tl0 HN Hbs Hlen) as [r Hr].
  pose proof (train_epoch_phases W args 0 0 tl0) as Hph.
  destruct (train_epoch W args 0 0 tl0) as [ttr res].
  cbn [outcome snd trace_of fst] in Hr, Hph. subst res.
  rewrite bind_ret_l', (bind_emit (ModelEval 0 0)).
  rewrite (getitem_Some _ _ _ Hvl), bind_ret_l.
  rewrite (validate_small_batch 0 0 vl b rest Hb Hsmall).
  cbn [bind trace_of outcome fst snd]. split; [reflexivity|].
  change (ModelTrain 0 0 :: ttr ++ [ModelEval 0 0; ModelForward 0 0 0])
    with ([ModelTrain 0 0] ++ ttr ++ [ModelEval 0 0; ModelForward 0 0 0]).
  rewrite !phases_app, Hph. reflexivity.
Qed.

End AssertionRun.

Lemma run_first_assert (W : Collaborators) (args : Args) (n : nat) :
  0 < batch_size args -> log_interval args <> 0 ->
  0 < valid_batch_size args < 16 ->
  (Z.to_nat (batch_size args) <= train_set_len W 0)%nat ->
  (Z.to_nat (valid_batch_size args) <= val_set_len W 0)%nat ->
  outcome (run_epochs W args (S n)) = Raise AssertionError /\
  phases (trace_of (run_epochs W args (S n)))
    = [(0, 0, PhTrain); (0, 0, PhValidate)]%nat.
Proof.
  intros Hbs HN Hv Htrain Hval. unfold run_epochs.
  rewrite make_loaders_eq, bind_ret_l by lia. cbn [fst snd].
  set (tls := loaders_of _ _ _). set (vls := loaders_of _ _ _).
  destruct (drop_last_batches (train_set_len W 0) (batch_size args) Hbs)
    as (_ & Htl & _).
  destruct (drop_last_batches (val_set_len W 0) (valid_batch_size args))
    as (Hvlen & Hvl & Hvf); [lia|].
  assert (Hq : (1 <= val_set_len W 0 / Z.to_nat (valid_batch_size args))%nat).
  { apply Nat.div_le_lower_bound; lia. }
  destruct (batches (drop_last_loader (val_set_len W 0)
                       (valid_batch_size args))) as [|b rest] eqn:Eb.
  { cbn [length] in Hvlen. lia. }
  apply Forall_cons in Hvf as [Hb _].
  destruct (slot_step_first_assert W args tls vls
              (drop_last_loader (train_set_len W 0) (batch_size args))
              (drop_last_loader (val_set_len W 0) (valid_batch_size args))
              b rest) as [Ho Hp]; try reflexivity; try assumption; try lia.
  { rewrite Htl. enough (1 <= train_set_len W 0 / Z.to_nat (batch_size args))%nat
      by lia. apply Nat.div_le_lower_bound; lia. }
  cbn [seq epoch_loop slot_loop].
  destruct (slot_step W args tls vls 0 0 best_state_init) as [t res].
  cbn [outcome snd trace_of fst] in Ho, Hp. subst res.
  cbn [bind outcome snd trace_of fst]. now split.
Qed.

(** C9, as amended: [grid_image] asserts [n <= batch_size] before it
    selects samples and the validation loop calls it with [n = 16] on its
    first batch, every batch holding exactly [valid_batch_size] samples.
    A run with [0 < valid_batch_size < 16] that gets through the first
    training epoch of slot 0 (a positive batch size, a non-zero log
    interval, at least one epoch and one full training batch) and has at
    least one full validation batch for slot 0 fails the assertion in the
    first validation epoch of slot 0, before any checkpoint; with
    [valid_batch_size >= 16] no run fails the assertion. *)
Theorem grid_image_assertion_in_run (W : Collaborators) (args : Args) :
  (0 < batch_size args -> log_interval args <> 0 -> 1 <= epochs args ->
   0 < valid_batch_size args < 16 ->
   (Z.to_nat (batch_size args) <= train_set_len W 0)%nat ->
   (Z.to_nat (valid_batch_size args) <= val_set_len W 0)%nat ->
   outcome (train W args) = Raise AssertionError /\
   phases (trace_of (train W args))
     = [(0, 0, PhTrain); (0, 0, PhValidate)]%nat) /\
  (16 <= valid_batch_size args ->
   outcome (train W args) <> Raise AssertionError).
Proof.
  split.
  - intros Hbs HN He Hv Htrain Hval. unfold train.
    destruct (Z.to_nat (epochs args)) as [|n] eqn:E; [lia|].
    now apply run_first_assert.
  - intros Hv. now apply no_assert_run.
Qed.

Lemma grid_image_assertion_in_run_witness :
  outcome (train (example_world never_stop) args_val_batch_8)
    = Raise AssertionError /\
  outcome (train (example_world never_stop) example_args)
    <> Raise AssertionError.
Proof.
  split.
  - refine (proj1 (proj1 (grid_image_assertion_in_run
                            (example_world never_stop) args_val_batch_8)
                     _ _ _ _ _ _)); cbn; lia.
  - refine (proj2 (grid_image_assertion_in_run
                     (example_world never_stop) example_args) _).
    cbn. lia.
Defined.

(** With validation batches of eight and a validation set of five samples
    no validation batch is ever formed, [grid_image] is never called, and
    the run does not fail the assertion. *)
Lemma small_batch_without_assertion :
  valid_batch_size args_val_batch_8 < 16 /\
  batches (drop_last_loader 5 (valid_batch_size args_val_batch_8)) = [] /\
  outcome (train (example_world_val 5) args_val_batch_8)
    <> Raise AssertionError.
Proof.
  split; [reflexivity|]. split; [reflexivity|].
  vm_compute. discriminate.
Qed.

(** ** [increment_path] *)

Lemma increment_path_unchanged lib fs path exist_ok :
  path_exists fs path = false \/ exist_ok = true ->
  increment_path lib fs path exist_ok = Ok path.
Proof.
  unfold increment_path.
  intros [-> | ->]; [reflexivity|].
  now destruct (path_exists fs path).
Qed.

(** C8, the code at the failing inputs.  The pattern is searched in the
    whole path, so a parent directory named like the stem with digits is
    what it finds: with [exp1/exp] and [exp1/exp5] present the result is
    [exp1/exp2], below the sibling's 5; once [exp1/exp2] exists the result
    is [exp1/exp2] again; and with [exp7/exp] alone the suffix is 8, not
    2. *)
Theorem increment_path_parent_digits (lib : PathLibs) :
  let fs := ["exp1/exp"; "exp1/exp5"]%string in
  increment_path lib fs "exp1/exp" false = Ok "exp1/exp2"%string /\
  numeric_suffix "exp1/exp" "exp1/exp5" = Some 5 /\
  path_exists fs "exp1/exp5" = true /\
  increment_path lib ("exp1/exp2"%string :: fs) "exp1/exp" false
    = Ok "exp1/exp2"%string /\
  increment_path lib ["exp7/exp"%string] "exp7/exp" false
    = Ok "exp7/exp8"%string.
Proof. repeat apply conj; vm_compute; reflexivity. Qed.

(** ** The argument order of the F1 call *)

Lemma true_positives_sym c ys : forall zs,
  true_positives c ys zs = true_positives c zs ys.
Proof.
  induction ys as [|y ys IH]; intros [|z zs]; try reflexivity.
  cbn [true_positives]. now rewrite IH, andb_comm.
Qed.

Lemma precision_swap c y_true y_pred :
  precision c y_pred y_true = recall c y_true y_pred.
Proof. unfold precision, recall. now rewrite true_positives_sym. Qed.

Lemma recall_swap c y_true y_pred :
  recall c y_pred y_true = precision c y_true y_pred.
Proof. unfold precision, recall. now rewrite true_positives_sym. Qed.

Lemma class_f1_sym c y_true y_pred :
  class_f1 c y_pred y_true = class_f1 c y_true y_pred.
Proof.
  unfold class_f1.
  rewrite (precision_swap c y_true y_pred), (recall_swap c y_true y_pred).
  f_equal; ring.
Qed.

Lemma macro_f1_sym y_true y_pred :
  macro_f1 y_pred y_true = macro_f1 y_true y_pred.
Proof.
  unfold macro_f1. rewrite (Nat.eqb_sym (length y_pred)).
  destruct (_ =? _)%nat; [|reflexivity].
  unfold present_labels.
  rewrite (union_comm_L (list_to_set y_pred) (list_to_set y_true)).
  do 3 f_equal. apply map_ext. intros c. apply class_f1_sym.
Qed.

Lemma macro_f1_defined y_true y_pred :
  length y_true = length y_pred -> exists q, macro_f1 y_true y_pred = Ok q.
Proof.
  intros H. unfold macro_f1. apply Nat.eqb_eq in H. rewrite H. eauto.
Qed.

Section F1Calls.

Variable W : Collaborators.
Variable args : Args.

Lemma train_loop_labels epoch i dl bs : forall idx s tr s',
  train_loop W args epoch i dl idx bs s = (tr, Ok s') ->
  y_true s' = y_true s
              ++ concat (map labels
                           (imap (fun j => forward_train W epoch i (idx + j))
                              bs)) /\
  y_pred s' = y_pred s
              ++ concat (map preds
                           (imap (fun j => forward_train W epoch i (idx + j))
                              bs)).
Proof.
  induction bs as [|b rest IH]; intros idx s tr s' H.
  - injection H as _ <-. cbn. now rewrite !app_nil_r.
  - cbn [train_loop] in H. inv_bind H u0 Hu0 H. cbv zeta in H.
    inv_bind H u Hu H. inv_bind H s2 Hs2 H.
    apply flush_window_keeps in Hs2 as (_ & _ & Ht & Hp).
    apply IH in H as [Ht' Hp']. rewrite Ht', Hp', Ht, Hp.
    cbn [imap map concat y_true y_pred]. rewrite Nat.add_0_r, <- !app_assoc.
    rewrite (imap_ext (fun j => forward_train W epoch i (S idx + j))
               ((fun j => forward_train W epoch i (idx + j)) ∘ S));
      [now split|].
    intros j x _. unfold compose. now rewrite Nat.add_succ_r.
Qed.

Lemma train_epoch_f1 epoch i dl tr r :
  train_epoch W args epoch i dl = (tr, Ok r) ->
  train_f1 r = f1_score W (concat (map preds (train_outs W epoch i dl)))
                 (concat (map labels (train_outs W epoch i dl))).
Proof.
  unfold train_epoch. intros H. inv_bind H s Hs H.
  inv_bind H tl0 Htl H. inv_bind H ta Hta H.
  injection H as _ <-. cbn [train_f1].
  apply train_loop_labels in Hs as [-> ->]. reflexivity.
Qed.

Lemma validate_f1 epoch i dl tr r :
  validate W args epoch i dl = (tr, Ok r) ->
  val_f1 r = f1_score W (concat (map preds (val_outs W epoch i dl)))
               (concat (map labels (val_outs W epoch i dl))).
Proof.
  rewrite validate_eq. intros [= _ H]. rewrite bind_outcome in H.
  destruct (outcome (first_figure W args epoch i dl)) as [fig|];
    [|discriminate].
  now injection H as <-.
Qed.

End F1Calls.

(** C10: the training and the validation loop call [f1_score] with the
    predicted labels first and the true labels second; macro-averaged F1
    does not change when the two sequences are exchanged (and is defined
    for sequences of equal length), so with [f1_score] the macro-F1 of its
    arguments, the reported value is the macro-F1 of (y_true, y_pred). *)
Theorem f1_swapped_arguments (W : Collaborators) (args : Args)
    (epoch i : nat) (dl : DataLoader) :
  (forall tr r, train_epoch W args epoch i dl = (tr, Ok r) ->
     train_f1 r = f1_score W (concat (map preds (train_outs W epoch i dl)))
                    (concat (map labels (train_outs W epoch i dl)))) /\
  (forall tr r, validate W args epoch i dl = (tr, Ok r) ->
     val_f1 r = f1_score W (concat (map preds (val_outs W epoch i dl)))
                  (concat (map labels (val_outs W epoch i dl)))) /\
  (forall y_true y_pred, macro_f1 y_pred y_true = macro_f1 y_true y_pred) /\
  (forall y_true y_pred, length y_true = length y_pred ->
     exists q, macro_f1 y_true y_pred = Ok q) /\
  (forall to_float : result Qc -> float,
     (forall a b, f1_score W a b = to_float (macro_f1 a b)) ->
     (forall tr r, train_epoch W args epoch i dl = (tr, Ok r) ->
        train_f1 r
        = to_float (macro_f1 (concat (map labels (train_outs W epoch i dl)))
                      (concat (map preds (train_outs W epoch i dl))))) /\
     (forall tr r, validate W args epoch i dl = (tr, Ok r) ->
        val_f1 r
        = to_float (macro_f1 (concat (map labels (val_outs W epoch i dl)))
                      (concat (map preds (val_outs W epoch i dl)))))).
Proof.
  split; [intros tr r; apply train_epoch_f1|].
  split; [intros tr r; apply validate_f1|].
  split; [apply macro_f1_sym|].
  split; [apply macro_f1_defined|].
  intros to_float Hf. split; intros tr r H.
  - rewrite (train_epoch_f1 _ _ _ _ _ _ _ H), Hf. now rewrite macro_f1_sym.
  - rewrite (validate_f1 _ _ _ _ _ _ _ H), Hf. now rewrite macro_f1_sym.
Qed.

Lemma f1_swapped_arguments_witness :
  val_f1 (match outcome (validate example_world_f1 example_args 0 0
                           (drop_last_loader 40 16)) with
          | Ok r => r
          | Raise _ => {| val_figure := None; val_loss := Float.zero;
                          val_acc := Float.zero; val_f1 := Float.zero |}
          end)
  = Float.of_int 1.
Proof.
  refine (eq_trans
    (proj2 (proj2 (proj2 (proj2 (proj2
       (f1_swapped_arguments example_world_f1 example_args 0 0
          (drop_last_loader 40 16))))) score_to_float _) _ _ _) _).
  - intros a b. reflexivity.
  - vm_compute. reflexivity.
  - vm_compute. reflexivity.
Defined.

(** The score of the library's own example, 4/15, either way round. *)
Example macro_f1_example :
  option_map this (match macro_f1 [0; 1; 2; 0; 1; 2] [0; 2; 1; 0; 0; 1] with
                   | Ok q => Some q
                   | Raise _ => None
                   end) = Some (4 # 15)%Q /\
  option_map this (match macro_f1 [0; 2; 1; 0; 0; 1] [0; 1; 2; 0; 1; 2] with
                   | Ok q => Some q
                   | Raise _ => None
                   end) = Some (4 # 15)%Q.
Proof. split; vm_compute; reflexivity. Qed.

(** ** The calls of a run, in order *)












Section Calls.

Variable W : Collaborators.
Variable args : Args.

Lemma make_loaders_Ok slots ls :
  outcome (make_loaders W args slots) = Ok ls ->
  slots = [] \/
  (0 < batch_size args /\ 0 < valid_batch_size args).
Proof.
  intros H. destruct slots as [|i rest]; [now left|]. right.
  cbn [make_loaders] in H. unfold new_DataLoader in H.
  destruct (batch_size args <=? 0) eqn:E1; [discriminate|].
  rewrite bind_ret_l in H.
  destruct (valid_batch_size args <=? 0) eqn:E2; [discriminate|]. lia.
Qed.





Hypothesis batch_size_pos : 0 < batch_size args.
Hypothesis valid_batch_size_pos : 0 < valid_batch_size args.




End Calls.





(* ===================================================================== *)
(** * Further properties of the code *)
(* ===================================================================== *)

(** ** The shape of an epoch under early stopping *)

Lemma follows_getitem {A} (l : list A) i :
  follows (getitem l i) [] (fun x => l !! i = Some x).
Proof.
  split; [rewrite getitem_trace; apply prefix_nil|].
  intros x H. rewrite getitem_trace. split; [reflexivity|].
  unfold getitem in H. destruct (l !! i); [|discriminate].
  cbn in H. congruence.
Qed.

Lemma follows_validate W args epoch i vl :
  follows (validate W args epoch i vl) []
    (fun v => exists fig, v = metrics_of W args epoch i vl fig).
Proof.
  split; [rewrite validate_phases; apply prefix_nil|].
  intros v H. rewrite validate_phases. split; [reflexivity|].
  rewrite validate_eq in H. cbn [outcome snd] in H.
  rewrite bind_outcome in H.
  destruct (outcome (first_figure W args epoch i vl)) as [fig|];
    [|discriminate].
  exists fig. cbn in H. congruence.
Qed.

Lemma loaders_of_lookup len bs slots i dl :
  loaders_of len bs slots !! i = Some dl ->
  exists j, slots !! i = Some j /\ dl = drop_last_loader (len j) bs.
Proof.
  unfold loaders_of. revert i.
  induction slots as [|j rest IH]; intros [|i] H; try discriminate.
  - injection H as <-. now exists j.
  - apply IH in H. exact H.
Qed.

Section EpochShape.

Variable W : Collaborators.
Variable args : Args.

Lemma follows_slot_step_stop tls slots k epoch st :
  slots !! k = Some k ->
  follows
    (slot_step W args tls
       (loaders_of (val_set_len W) (valid_batch_size args) slots)
       epoch k st)
    (slot_phases epoch k) (fun r => snd r = stop_answer W args epoch k).
Proof.
  intros Hk. unfold slot_step. eapply follows_eq.
  - eapply follows_bind;
      [apply follows_silent; now rewrite getitem_trace|intros a _].
    eapply follows_bind;
      [apply follows_silent; now rewrite getitem_trace|intros a0 _].
    eapply follows_bind;
      [apply follows_silent; now rewrite getitem_trace|intros a1 _].
    eapply follows_bind; [apply follows_emit|intros _ _].
    eapply follows_bind;
      [apply follows_silent; now rewrite getitem_trace|intros trl _].
    eapply follows_bind;
      [apply follows_silent; apply train_epoch_phases|intros trm _].
    eapply follows_bind; [apply follows_emit|intros _ _].
    eapply follows_bind; [apply follows_getitem|intros vl Hvl].
    eapply follows_bind; [apply follows_validate|intros v [fig ->]].
    eapply follows_bind;
      [apply follows_silent; now rewrite setitem_trace|intros accs _].
    eapply follows_bind;
      [apply follows_silent; now rewrite setitem_trace|intros losses _].
    eapply follows_bind; [apply follows_checkpoint|intros scores _].
    eapply follows_bind; [now apply follows_emit_silent|intros _ _].
    eapply follows_bind; [now apply follows_emit_silent|intros _ _].
    eapply follows_bind; [now apply follows_emit_silent|intros _ _].
    eapply follows_bind; [now apply follows_emit_silent|intros _ _].
    eapply follows_bind;
      [now apply (follows_emit_phase _ (epoch, k, PhEarlyStop))|intros _ _].
    apply follows_ret. cbn [snd].
    apply loaders_of_lookup in Hvl as (j & Hj & ->).
    rewrite Hk in Hj. injection Hj as <-. reflexivity.
  - reflexivity.
Qed.

Lemma follows_slot_loop_stop tls epoch n : forall k st,
  (k + n = 5)%nat ->
  follows
    (slot_loop W args tls
       (loaders_of (val_set_len W) (valid_batch_size args) (seq 0 5))
       epoch (seq k n) st)
    (concat (map (slot_phases epoch)
               (visited (stop_answer W args epoch) (seq k n))))
    (fun _ => True).
Proof.
  induction n as [|n IH]; intros k st Hk.
  - now apply follows_ret.
  - cbn [seq slot_loop visited].
    assert (Hlk : seq 0 5 !! k = Some k).
    { apply lookup_seq. lia. }
    destruct (stop_answer W args epoch k) eqn:E.
    + cbn [map concat]. rewrite app_nil_r.
      eapply follows_eq.
      * eapply follows_bind;
          [exact (follows_slot_step_stop tls _ k epoch st Hlk)|].
        intros r Hr. rewrite Hr, E. now apply follows_ret.
      * now rewrite app_nil_r.
    + cbn [map concat].
      eapply follows_bind;
        [exact (follows_slot_step_stop tls _ k epoch st Hlk)|].
      intros r Hr. rewrite Hr, E. apply IH. lia.
Qed.

Lemma follows_epoch_loop_stop tls es : forall st,
  follows
    (epoch_loop W args tls
       (loaders_of (val_set_len W) (valid_batch_size args) (seq 0 5)) es st)
    (concat (map (fun epoch =>
                    concat (map (slot_phases epoch)
                              (visited (stop_answer W args epoch) (seq 0 5))))
               es))
    (fun _ => True).
Proof.
  induction es as [|e rest IH]; intros st.
  - now apply follows_ret.
  - cbn [epoch_loop map concat].
    eapply follows_bind; [now apply (follows_slot_loop_stop tls e 5 0)|].
    intros st' _. apply IH.
Qed.

Lemma follows_run_epochs_stop n :
  follows (run_epochs W args n) (run_phases W args n) (fun _ => True).
Proof.
  unfold run_epochs, run_phases.
  destruct (outcome (make_loaders W args (seq 0 5))) as [ls|e] eqn:E.
  - apply make_loaders_Ok in E as [E|[Hb Hv]]; [discriminate|].
    rewrite make_loaders_eq, bind_ret_l by assumption. cbn [fst snd].
    apply follows_epoch_loop_stop.
  - pose proof (make_loaders_trace W args (seq 0 5)) as Ht.
    destruct (make_loaders W args (seq 0 5)) as [t res].
    cbn in E, Ht. subst. cbn [bind]. split; [apply prefix_nil|discriminate].
Qed.

End EpochShape.

(** X1: whatever the early-stop calls answer, every epoch starts at slot 0
    and goes through the slots in order up to and including the first one
    whose call answers true (all five if none does), four phases per slot;
    the [break] ends the epoch, not the slot, so the next epoch visits the
    stopped slot again.  The calls of a run are a prefix of that list, and
    all of it when the run returns. *)
Theorem epoch_ends_at_first_stop (W : Collaborators) (args : Args) :
  phases (trace_of (train W args))
    `prefix_of` run_phases W args (Z.to_nat (epochs args)) /\
  forall st, outcome (train W args) = Ok st ->
    phases (trace_of (train W args))
      = run_phases W args (Z.to_nat (epochs args)).
Proof.
  destruct (follows_run_epochs_stop W args (Z.to_nat (epochs args)))
    as [Hp Hok].
  split; [exact Hp|]. intros st Hst. now destruct (Hok st Hst).
Qed.

Lemma epoch_ends_at_first_stop_witness :
  phases (trace_of (train (example_world (stop_at 2 2)) example_args))
  = schedule 2
    ++ concat (map (slot_phases 2) [0; 1; 2]%nat)
    ++ epoch_phases 3.
Proof.
  refine (eq_trans
    (proj2 (epoch_ends_at_first_stop (example_world (stop_at 2 2))
              example_args)
       (final_state (train (example_world (stop_at 2 2)) example_args)) _) _).
  - vm_compute. reflexivity.
  - vm_compute. reflexivity.
Defined.

(** ** A training epoch: optimizer steps, loss, and how it fails *)

Lemma optimizer_steps_app epoch i t1 t2 :
  optimizer_steps epoch i (t1 ++ t2)
  = optimizer_steps epoch i t1 ++ optimizer_steps epoch i t2.
Proof. apply omap_app. Qed.

Lemma optimizer_steps_single epoch i idx :
  optimizer_steps epoch i [OptimizerStep epoch i idx] = [idx].
Proof.
  unfold optimizer_steps. simpl. now rewrite !Nat.eqb_refl.
Qed.

Lemma flush_window_no_step args epoch0 dl idx s epoch i :
  optimizer_steps epoch i (trace_of (flush_window args epoch0 dl idx s)) = [].
Proof.
  unfold flush_window. rewrite bind_trace, py_mod_trace.
  destruct (outcome _) as [r|]; [|reflexivity].
  destruct (r =? 0); [|reflexivity].
  rewrite bind_trace, py_truediv_trace.
  destruct (outcome _); [|reflexivity].
  unfold py_int_truediv. rewrite bind_trace, py_truediv_trace.
  destruct (outcome _); [|reflexivity].
  rewrite bind_trace, py_truediv_trace.
  destruct (outcome _); [|reflexivity].
  reflexivity.
Qed.

Section TrainEpoch.

Variable W : Collaborators.
Variable args : Args.

Lemma train_loop_steps epoch i dl bs :
  log_interval args <> 0 -> batch_size args <> 0 ->
  forall idx s,
    optimizer_steps epoch i
      (trace_of (train_loop W args epoch i dl idx bs s))
    = seq idx (length bs).
Proof.
  intros HN Hb. induction bs as [|b rest IH]; intros idx s; [reflexivity|].
  cbn [train_loop length seq]. rewrite bind_emit. cbn [trace_of fst].
  change (optimizer_steps epoch i (ModelForward epoch i idx :: ?t))
    with (optimizer_steps epoch i t).
  cbv zeta. rewrite bind_emit. cbn [trace_of fst].
  change (?ev :: ?t) with ([ev] ++ t).
  rewrite optimizer_steps_app, bind_trace, optimizer_steps_app.
  rewrite flush_window_no_step, optimizer_steps_single. cbn [app].
  rewrite flush_window_eq by assumption.
  destruct (_ mod _ =? 0); cbn [outcome snd]; now rewrite IH.
Qed.

Lemma train_loop_loss epoch i dl bs : forall idx s tr s',
  train_loop W args epoch i dl idx bs s = (tr, Ok s') ->
  loss_value s' =
  fold_left (fun acc o => Float.add acc (loss o))
    (imap (fun j => forward_train W epoch i (idx + j)) bs) (loss_value s).
Proof.
  induction bs as [|b rest IH]; intros idx s tr s' H.
  - now injection H as _ <-.
  - cbn [train_loop] in H. inv_bind H u0 Hu0 H. cbv zeta in H.
    inv_bind H u Hu H. inv_bind H s2 Hs2 H.
    apply flush_window_keeps in Hs2 as (_ & Hl & _).
    apply IH in H. rewrite H, Hl. cbn [imap fold_left loss_value].
    rewrite Nat.add_0_r.
    rewrite (imap_ext (fun j => forward_train W epoch i (S idx + j))
               ((fun j => forward_train W epoch i (idx + j)) ∘ S));
      [reflexivity|].
    intros j x _. unfold compose. now rewrite Nat.add_succ_r.
Qed.

Lemma train_epoch_tail_trace s dl :
  trace_of
    (tl0 <- py_truediv (loss_value s) (Z.of_nat (loader_len dl)) ;;
     ta <- py_int_truediv (matches s)
             (batch_size args * Z.of_nat (loader_len dl)) ;;
     ret {| train_loss := tl0; train_acc := ta;
            train_f1 := f1_score W (y_pred s) (y_true s) |}) = [].
Proof.
  rewrite bind_trace, py_truediv_trace.
  destruct (outcome _); [|reflexivity].
  unfold py_int_truediv. rewrite bind_trace, py_truediv_trace.
  now destruct (outcome _).
Qed.

End TrainEpoch.

(** X3: with a non-zero log interval, a training epoch makes one optimizer
    step per batch of the loader, in batch order, whether or not it
    returns; it returns as soon as the loader has a batch, and its loss is
    the batch losses added from the left, divided by [len(loader)]. *)
Theorem train_epoch_steps_and_loss (W : Collaborators) (args : Args)
    (epoch i size : nat) :
  log_interval args <> 0 ->
  0 < batch_size args ->
  let dl := drop_last_loader size (batch_size args) in
  optimizer_steps epoch i (trace_of (train_epoch W args epoch i dl))
    = seq 0 (size / Z.to_nat (batch_size args)) /\
  ((Z.to_nat (batch_size args) <= size)%nat ->
   exists r, outcome (train_epoch W args epoch i dl) = Ok r) /\
  (forall tr r, train_epoch W args epoch i dl = (tr, Ok r) ->
     train_loss r
     = Float.div (train_loss_sum W epoch i dl)
         (Float.of_int (Z.of_nat (loader_len dl)))).
Proof.
  intros HN Hb dl.
  destruct (drop_last_batches size (batch_size args) Hb) as (Hlen & Hl & _).
  fold dl in Hlen, Hl. split; [|split].
  - unfold train_epoch. cbv zeta. rewrite bind_trace, optimizer_steps_app.
    rewrite train_loop_steps by lia.
    destruct (outcome _) as [s|];
      [rewrite train_epoch_tail_trace|]; now rewrite app_nil_r, Hlen, Hl.
  - intros Hsize. apply train_epoch_Ok; [assumption|lia|].
    rewrite Hl. enough (1 <= size / Z.to_nat (batch_size args))%nat by lia.
    apply Nat.div_le_lower_bound; lia.
  - intros tr r H. unfold train_epoch in H. inv_bind H s Hs H.
    inv_bind H tl0 Htl H. inv_bind H ta Hta H. injection H as _ <-.
    cbn [train_loss]. apply py_truediv_Ok in Htl as (_ & -> & _).
    apply train_loop_loss in Hs. rewrite Hs. reflexivity.
Qed.

Lemma train_epoch_steps_and_loss_witness :
  optimizer_steps 1 0
    (trace_of (train_epoch (example_world never_stop) example_args 1 0
                 (drop_last_loader 40 16)))
  = [0; 1]%nat.
Proof.
  refine (proj1 (train_epoch_steps_and_loss (example_world never_stop)
                   example_args 1 0 40 _ _)).
  - discriminate.
  - reflexivity.
Defined.

(** X4: how a training epoch fails.  With [log_interval = 0] the first
    batch is trained on (its forward pass and its optimizer step) and the
    modulo of the logging test then raises ZeroDivisionError; with a training set smaller than one batch the
    loader is empty, nothing is trained, and the mean loss [0 / 0] raises
    ZeroDivisionError. *)
Theorem train_epoch_zero_division (W : Collaborators) (args : Args)
    (epoch i size : nat) :
  0 < batch_size args ->
  let dl := drop_last_loader size (batch_size args) in
  (log_interval args = 0 -> (Z.to_nat (batch_size args) <= size)%nat ->
   train_epoch W args epoch i dl
     = ([ModelForward epoch i 0; OptimizerStep epoch i 0],
        Raise ZeroDivisionError)) /\
  ((size < Z.to_nat (batch_size args))%nat ->
   train_epoch W args epoch i dl = ([], Raise ZeroDivisionError)).
Proof.
  intros Hb dl.
  destruct (drop_last_batches size (batch_size args) Hb) as (Hlen & Hl & _).
  fold dl in Hlen, Hl. split.
  - intros HN Hsize.
    assert (Hq : (1 <= size / Z.to_nat (batch_size args))%nat)
      by (apply Nat.div_le_lower_bound; lia).
    unfold train_epoch. destruct (batches dl) as [|b rest] eqn:E.
    { cbn [length] in Hlen. lia. }
    cbn [train_loop]. unfold flush_window, py_mod. rewrite HN.
    reflexivity.
  - intros Hsize.
    assert (Hq : (size / Z.to_nat (batch_size args) = 0)%nat)
      by (apply Nat.div_small; lia).
    unfold train_epoch. destruct (batches dl) as [|b rest] eqn:E.
    + cbn [train_loop]. rewrite bind_ret_l. rewrite Hl, Hq. reflexivity.
    + cbn [length] in Hlen. lia.
Qed.

Lemma train_epoch_zero_division_witness :
  train_epoch (example_world never_stop) example_args 0 0
    (drop_last_loader 10 16) = ([], Raise ZeroDivisionError).
Proof.
  refine (proj2 (train_epoch_zero_division (example_world never_stop)
                   example_args 0 0 10 _) _).
  - reflexivity.
  - cbn. lia.
Defined.

(** ** Validation over an empty loader *)

Lemma py_max_nan best : Float.py_max best S754_nan = best.
Proof. unfold Float.py_max. now destruct best. Qed.

(** X5: a validation set smaller than one batch leaves the validation
    loader empty: the loop body never runs, no figure is made, nothing
    raises, the accuracy is [0 / 0] in numpy, that is NaN, and the F1 call
    receives two empty lists; a NaN accuracy leaves every best accuracy as
    it was. *)
Theorem validate_empty_loader (W : Collaborators) (args : Args)
    (epoch i size : nat) :
  0 < valid_batch_size args ->
  (size < Z.to_nat (valid_batch_size args))%nat ->
  exists v,
    validate W args epoch i (drop_last_loader size (valid_batch_size args))
      = ([], Ok v) /\
    val_figure v = None /\
    val_acc v = S754_nan /\
    val_f1 v = f1_score W [] [] /\
    forall best, Float.py_max best (val_acc v) = best.
Proof.
  intros Hv Hsize.
  destruct (drop_last_batches size (valid_batch_size args) Hv)
    as (Hlen & Hl & _).
  assert (Hq : (size / Z.to_nat (valid_batch_size args) = 0)%nat)
    by (apply Nat.div_small; lia).
  destruct (batches (drop_last_loader size (valid_batch_size args)))
    as [|b rest] eqn:E; [|cbn [length] in Hlen; lia].
  eexists. split.
  - unfold validate. rewrite E. cbn [val_loop]. rewrite bind_ret_l.
    reflexivity.
  - unfold val_aggregate. cbn [val_figure val_acc val_f1 val_sums_init
      figure val_acc_items val_y_pred val_y_true].
    rewrite Hl, Hq, Z.mul_0_r.
    repeat split. intros best. apply py_max_nan.
Qed.

Lemma validate_empty_loader_witness :
  exists v,
    validate (example_world never_stop) args_val_batch_8 0 0
      (drop_last_loader 5 8) = ([], Ok v).
Proof.
  destruct (validate_empty_loader (example_world never_stop)
              args_val_batch_8 0 0 5) as (v & H & _).
  - reflexivity.
  - cbn. lia.
  - exists v. exact H.
Defined.

(** ** What [grid_image] shows *)

Lemma subplots_seq gts ps m : forall k,
  (k + m <= length gts)%nat -> (k + m <= length ps)%nat ->
  subplots gts ps (seq k m)
  = ret (zip (take m (drop k gts)) (take m (drop k ps))).
Proof.
  induction m as [|m IH]; intros k Hg Hp; [reflexivity|].
  cbn [seq subplots].
  destruct (lookup_lt_is_Some_2 gts k) as [g Hgk]; [lia|].
  destruct (lookup_lt_is_Some_2 ps k) as [p Hpk]; [lia|].
  rewrite (getitem_Some _ _ _ Hgk), bind_ret_l.
  rewrite (getitem_Some _ _ _ Hpk), bind_ret_l.
  rewrite IH, bind_ret_l by lia.
  rewrite (drop_S _ _ _ Hgk), (drop_S _ _ _ Hpk). reflexivity.
Qed.

Lemma subplots_in_range gts ps choices :
  Forall (fun c => (c < length gts)%nat /\ (c < length ps)%nat) choices ->
  exists fig, subplots gts ps choices = ret fig /\
    Forall2 (fun c p => gts !! c = Some (fst p) /\ ps !! c = Some (snd p))
      choices fig.
Proof.
  induction 1 as [|c rest [Hg Hp] _ [fig [E F]]].
  - exists []. split; [reflexivity|constructor].
  - destruct (lookup_lt_is_Some_2 gts c Hg) as [g Hgc].
    destruct (lookup_lt_is_Some_2 ps c Hp) as [p Hpc].
    exists ((g, p) :: fig). split.
    + cbn [subplots].
      rewrite (getitem_Some _ _ _ Hgc), bind_ret_l.
      rewrite (getitem_Some _ _ _ Hpc), bind_ret_l.
      now rewrite E, bind_ret_l.
    + constructor; [now split|exact F].
Qed.

Lemma subplots_out_of_range gts ps choices :
  Exists (fun c => (length gts <= c)%nat \/ (length ps <= c)%nat) choices ->
  subplots gts ps choices = ([], Raise IndexError).
Proof.
  induction choices as [|c rest IH]; intros H; [inversion H|].
  cbn [subplots]. unfold getitem at 1.
  destruct (gts !! c) as [g|] eqn:Hg; [|reflexivity].
  rewrite bind_ret_l. unfold getitem at 1.
  destruct (ps !! c) as [p|] eqn:Hp; [|reflexivity].
  rewrite bind_ret_l.
  apply lookup_lt_Some in Hg, Hp.
  apply Exists_cons in H as [[H|H]|H]; [lia|lia|].
  now rewrite (IH H).
Qed.

(** X6: [grid_image] with [n <= batch_size] draws one subplot per choice,
    in the order of the choices (the random ones under shuffling, the
    first [n] positions otherwise), each showing the ground truth and the
    prediction of the chosen sample; it returns the figure exactly when
    every choice lies inside both label tensors, and raises IndexError as
    soon as one choice lies outside either of them.  Without shuffling and
    with at least [n] labels the figure is the first [n] pairs.  With
    [n > batch_size] it raises AssertionError before anything is chosen. *)
Theorem grid_image_figure (rnd : nat -> nat -> list nat) (batch_size : nat)
    (gts preds : list Z) (n : nat) (shuffle : bool) :
  ((n <= batch_size)%nat ->
   Forall (fun c => (c < length gts)%nat /\ (c < length preds)%nat)
     (grid_choices rnd batch_size n shuffle) ->
   exists fig,
     grid_image rnd batch_size gts preds n shuffle = ret fig /\
     Forall2 (fun c p => gts !! c = Some (fst p) /\ preds !! c = Some (snd p))
       (grid_choices rnd batch_size n shuffle) fig) /\
  ((n <= batch_size)%nat ->
   Exists (fun c => (length gts <= c)%nat \/ (length preds <= c)%nat)
     (grid_choices rnd batch_size n shuffle) ->
   grid_image rnd batch_size gts preds n shuffle = ([], Raise IndexError)) /\
  ((n <= batch_size)%nat -> shuffle = false ->
   (n <= length gts)%nat -> (n <= length preds)%nat ->
   grid_image rnd batch_size gts preds n shuffle
     = ret (zip (take n gts) (take n preds))) /\
  ((batch_size < n)%nat ->
   grid_image rnd batch_size gts preds n shuffle
     = ([], Raise AssertionError)).
Proof.
  assert (Hbody : (n <= batch_size)%nat ->
    grid_image rnd batch_size gts preds n shuffle
    = subplots gts preds (grid_choices rnd batch_size n shuffle)).
  { intros Hn. unfold grid_image, grid_choices.
    apply Nat.leb_le in Hn. rewrite Hn. cbn [py_assert].
    now rewrite bind_ret_l. }
  split; [|split; [|split]].
  - intros Hn Hin. rewrite (Hbody Hn). now apply subplots_in_range.
  - intros Hn Hout. rewrite (Hbody Hn). now apply subplots_out_of_range.
  - intros Hn -> Hg Hp. rewrite (Hbody Hn). unfold grid_choices.
    rewrite subplots_seq by lia. now rewrite !drop_0.
  - intros Hn. now apply grid_image_small.
Qed.

Lemma grid_image_figure_witness :
  grid_image (fun _ _ => [2; 0; 5]%nat) 4 [7; 8; 9; 7] [7; 9; 9; 8] 3 true
    = ([], Raise IndexError) /\
  grid_image (fun _ _ => []) 4 [7; 8; 9; 7] [7; 9; 9; 8] 3 false
    = ret [(7, 7); (8, 9); (9, 9)].
Proof.
  split.
  - refine (proj1 (proj2 (grid_image_figure (fun _ _ => [2; 0; 5]%nat) 4
                     [7; 8; 9; 7] [7; 9; 9; 8] 3 true)) _ _).
    + lia.
    + vm_compute. do 2 apply Exists_cons_tl. apply Exists_cons_hd.
      left. lia.
  - refine (proj1 (proj2 (proj2 (grid_image_figure (fun _ _ => []) 4
                     [7; 8; 9; 7] [7; 9; 9; 8] 3 false))) _ _ _ _);
      [lia|reflexivity|cbn; lia|cbn; lia].
Defined.

(** ** The stored best F1 is the running maximum *)

Lemma float_not_ltb_le a b :
  Float.is_nan a = false -> Float.is_nan b = false ->
  Float.ltb a b = false -> float_le b a.
Proof.
  unfold float_le, Float.ltb, Float.leb, SFltb, SFleb.
  destruct a as [[]|[]| |[] ? ?], b as [[]|[]| |[] ? ?];
    simpl; try discriminate; try reflexivity;
    change (Pos.compare_cont Eq) with Pos.compare;
    intros; cmp_cases; simpl in *; subst;
    try discriminate; try reflexivity; try lia.
Qed.

Lemma checkpoint_epochs_max i f1s : forall epoch best (scores : list float),
  scores !! i = Some best -> Float.is_nan best = false ->
  exists scores' b,
    outcome (checkpoint_epochs i epoch f1s scores) = Ok scores' /\
    scores' !! i = Some b /\
    Float.is_nan b = false /\
    float_le best b /\
    (forall f, f ∈ f1s -> Float.is_nan f = false -> float_le f b) /\
    (b = best \/ b ∈ f1s) /\
    (forall j, j <> i -> scores' !! j = scores !! j).
Proof.
  induction f1s as [|f1 rest IH]; intros epoch best scores Hb Hn.
  - exists scores, best. repeat split; try assumption.
    + now apply float_le_refl.
    + intros f Hf. inversion Hf.
    + now left.
  - pose proof (lookup_lt_Some _ _ _ Hb) as Hlt.
    cbn [checkpoint_epochs]. rewrite (getitem_Some _ _ _ Hb), bind_ret_l.
    rewrite checkpoint_eq by assumption. rewrite bind_outcome.
    cbn [outcome snd].
    destruct (Float.ltb best f1) eqn:E.
    + destruct (IH (S epoch) f1 (<[i:=f1]> scores))
        as (s' & b & Ho & Hs & Hbn & Hle & Hall & Hin & Hoth).
      { now apply list_lookup_insert_eq. }
      { eapply float_ltb_not_nan; eauto. }
      exists s', b. repeat split; try assumption.
      * eapply float_le_trans; [apply float_ltb_leb; eassumption|exact Hle].
      * intros f Hf Hfn. apply elem_of_cons in Hf as [->|Hf];
          [exact Hle|now apply Hall].
      * right. destruct Hin as [->|Hin];
          [apply elem_of_cons; now left|apply elem_of_cons; now right].
      * intros j Hj. rewrite Hoth by assumption.
        apply list_lookup_insert_ne. congruence.
    + destruct (IH (S epoch) best scores Hb Hn)
        as (s' & b & Ho & Hs & Hbn & Hle & Hall & Hin & Hoth).
      exists s', b. repeat split; try assumption.
      * intros f Hf Hfn. apply elem_of_cons in Hf as [->|Hf];
          [|now apply Hall].
        eapply float_le_trans; [|exact Hle].
        now apply float_not_ltb_le.
      * destruct Hin as [->|Hin];
          [now left|right; apply elem_of_cons; now right].
Qed.

(** X7: after the checkpoint steps of a slot over any sequence of F1
    values, the slot's entry of [best_f1_scores] is the running maximum:
    it is not NaN, it is at least 0 and at least every F1 of the sequence
    that is not NaN, and it is 0 or one of those values; a NaN F1 is never
    stored, and the entries of the other slots are untouched. *)
Theorem best_f1_running_max (i : nat) (f1s : list float) :
  (i < 5)%nat ->
  exists scores' b,
    outcome (checkpoint_epochs i 0 f1s (best_f1_scores best_state_init))
      = Ok scores' /\
    scores' !! i = Some b /\
    Float.is_nan b = false /\
    Float.leb Float.zero b = true /\
    (forall f, f ∈ f1s -> Float.is_nan f = false -> Float.leb f b = true) /\
    (b = Float.zero \/ b ∈ f1s) /\
    (forall j, j <> i ->
       scores' !! j = best_f1_scores best_state_init !! j).
Proof.
  intros Hi.
  apply (checkpoint_epochs_max i f1s 0 Float.zero).
  - unfold best_state_init, best_f1_scores.
    apply lookup_replicate_2. exact Hi.
  - reflexivity.
Qed.

Lemma best_f1_running_max_witness :
  exists scores',
    outcome (checkpoint_epochs 2 0 (S754_nan :: f1_example)
               (best_f1_scores best_state_init)) = Ok scores' /\
    scores' !! 2%nat = Some (Float.tenths 5).
Proof.
  destruct (best_f1_running_max 2 (S754_nan :: f1_example))
    as (scores' & b & Ho & Hb & _); [lia|].
  exists scores'. split; [exact Ho|].
  vm_compute in Ho. injection Ho as <-. reflexivity.
Defined.

(** ** [increment_path]: decimal numerals *)

Local Open Scope string_scope.

Lemma uint_value_string d : forall acc,
  fold_left (fun a c => 10 * a + (Z.of_nat (nat_of_ascii c) - 48))
    (list_ascii_of_string (NilEmpty.string_of_uint d)) acc
  = uint_value d acc.
Proof.
  induction d; intros acc; cbn [NilEmpty.string_of_uint list_ascii_of_string
    fold_left uint_value]; try reflexivity; rewrite <- IHd; reflexivity.
Qed.

Lemma uint_value_acc d : forall acc : positive,
  Zpos (Pos.of_uint_acc d acc) = uint_value d (Zpos acc).
Proof.
  induction d; intros acc; cbn [Pos.of_uint_acc uint_value];
    try reflexivity; rewrite IHd; f_equal; lia.
Qed.

Lemma uint_value_of_uint d : Z.of_N (N.of_uint d) = uint_value d 0.
Proof.
  unfold N.of_uint.
  induction d; cbn [Pos.of_uint uint_value Z.of_N]; try reflexivity;
    try exact IHd; rewrite uint_value_acc; reflexivity.
Qed.

Lemma int_of_str n : 0 <= n -> int_of_digits (str_of_int n) = n.
Proof.
  intros Hn. unfold int_of_digits, str_of_int, NilZero.string_of_uint.
  rewrite <- (Z2N.id n Hn) at 2.
  rewrite <- (DecimalN.Unsigned.of_to (Z.to_N n)) at 2.
  rewrite uint_value_of_uint.
  destruct (N.to_uint (Z.to_N n)) eqn:E; try apply uint_value_string.
  reflexivity.
Qed.

Lemma all_digits_uint d : all_digits (NilEmpty.string_of_uint d) = true.
Proof. induction d; cbn; auto. Qed.

Lemma all_digits_str n : all_digits (str_of_int n) = true.
Proof.
  unfold str_of_int, NilZero.string_of_uint.
  destruct (N.to_uint (Z.to_N n)) eqn:E; try reflexivity;
    rewrite <- E at 1; rewrite E; apply all_digits_uint.
Qed.

Lemma str_of_int_nonempty n : str_of_int n <> "".
Proof.
  unfold str_of_int, NilZero.string_of_uint.
  destruct (N.to_uint (Z.to_N n)); discriminate.
Qed.

Lemma digits_fold_nonneg s : forall acc,
  0 <= acc -> all_digits s = true ->
  0 <= fold_left (fun a c => 10 * a + (Z.of_nat (nat_of_ascii c) - 48))
         (list_ascii_of_string s) acc.
Proof.
  induction s as [|c s IH]; intros acc Hacc H; [exact Hacc|].
  cbn [all_digits] in H. apply andb_prop in H as [Hc Hs].
  unfold is_digit in Hc. apply andb_prop in Hc as [Hc1 Hc2].
  apply Nat.leb_le in Hc1, Hc2.
  cbn [list_ascii_of_string fold_left]. apply IH; [lia|assumption].
Qed.

Lemma int_of_digits_nonneg s : all_digits s = true -> 0 <= int_of_digits s.
Proof. apply digits_fold_nonneg. lia. Qed.

(** ** [increment_path]: strings and the pattern *)

Lemma append_cons c p r : String c p ++ r = String c (p ++ r).
Proof. reflexivity. Qed.

Lemma append_nil r : "" ++ r = r.
Proof. reflexivity. Qed.

Lemma prefix_append p r : String.prefix p (p ++ r) = true.
Proof.
  induction p as [|c p IH]; rewrite ?append_cons, ?append_nil;
    [now destruct r|].
  cbn [String.prefix].
  destruct (ascii_dec c c) as [_|Hne]; [exact IH|now destruct Hne].
Qed.

Lemma substring_all s : substring 0 (String.length s) s = s.
Proof. induction s as [|c s IH]; cbn; [reflexivity|now rewrite IH]. Qed.

Lemma substring_append p r :
  substring (String.length p) (String.length (p ++ r) - String.length p)
    (p ++ r) = r.
Proof.
  induction p as [|c p IH]; rewrite ?append_cons, ?append_nil;
    cbn [String.length].
  - rewrite Nat.sub_0_r. apply substring_all.
  - cbn [substring Nat.sub]. exact IH.
Qed.

Lemma prefix_split p d :
  String.prefix p d = true ->
  d = p ++ substring (String.length p)
             (String.length d - String.length p) d.
Proof.
  revert d. induction p as [|c p IH]; intros d H.
  - rewrite append_nil. cbn [String.length].
    now rewrite Nat.sub_0_r, substring_all.
  - destruct d as [|c' d]; [discriminate|]. cbn [String.prefix] in H.
    destruct (ascii_dec c c') as [->|]; [|discriminate].
    rewrite append_cons. cbn [String.length substring Nat.sub].
    f_equal. now apply IH.
Qed.

Lemma take_digits_all s : all_digits s = true -> take_digits s = s.
Proof.
  induction s as [|c s IH]; [reflexivity|]. cbn.
  intros H. apply andb_prop in H as [-> Hs]. now rewrite IH.
Qed.

Lemma take_digits_is_digits s : all_digits (take_digits s) = true.
Proof.
  induction s as [|c s IH]; [reflexivity|]. cbn.
  destruct (is_digit c) eqn:E; [|reflexivity]. cbn. now rewrite E.
Qed.

Lemma take_digits_fixed s : take_digits s = s -> all_digits s = true.
Proof. intros H. rewrite <- H. apply take_digits_is_digits. Qed.

Lemma all_digits_no_slash s : all_digits s = true -> has_slash s = false.
Proof.
  induction s as [|c s IH]; [reflexivity|]. cbn.
  intros H. apply andb_prop in H as [Hc Hs]. rewrite (IH Hs), orb_false_r.
  destruct (Ascii.eqb_spec c "/") as [->|]; [discriminate|reflexivity].
Qed.

Lemma literal_match_append stem r :
  literal_match stem (stem ++ r)
  = match take_digits r with
    | "" => None
    | String c g => Some (String c g)
    end.
Proof.
  unfold literal_match. now rewrite prefix_append, substring_append.
Qed.

Lemma literal_match_digits stem d g :
  literal_match stem d = Some g -> all_digits g = true.
Proof.
  unfold literal_match. destruct (String.prefix stem d); [|discriminate].
  destruct (take_digits _) eqn:E; [discriminate|].
  intros [= <-]. rewrite <- E. apply take_digits_is_digits.
Qed.

Lemma literal_match_cons_same x stem d :
  literal_match (String x stem) (String x d) = literal_match stem d.
Proof.
  unfold literal_match. cbn [String.prefix String.length substring Nat.sub].
  destruct (ascii_dec x x) as [_|Hne]; [reflexivity|now destruct Hne].
Qed.

Lemma literal_match_cons_diff x c stem d :
  x <> c -> literal_match (String x stem) (String c d) = None.
Proof.
  intros H. unfold literal_match. cbn [String.prefix].
  destruct (ascii_dec x c) as [He|_]; [now destruct H|reflexivity].
Qed.

Lemma literal_match_empty_stem d :
  literal_match "" d = match take_digits d with
                    | "" => None
                    | String c g => Some (String c g)
                    end.
Proof. exact (literal_match_append "" d). Qed.

Lemma ends_with_slash_cons c b :
  ends_with_slash (String c b) = true ->
  (b = "" /\ c = "/"%char) \/ (b <> "" /\ ends_with_slash b = true).
Proof.
  destruct b as [|c' b]; cbn [ends_with_slash].
  - intros H. left. split; [reflexivity|]. now apply Ascii.eqb_eq.
  - intros H. right. split; [discriminate|exact H].
Qed.

Lemma literal_match_extend stem : forall b s,
  has_slash stem = false -> ends_with_slash b = true ->
  literal_match stem b = None -> literal_match stem (b ++ s) = None.
Proof.
  induction stem as [|x stem IH]; intros b s Hs Hb Hm.
  - destruct b as [|c b]; [discriminate|].
    rewrite append_cons, literal_match_empty_stem in *.
    cbn [take_digits] in *.
    destruct (is_digit c); [discriminate|reflexivity].
  - destruct b as [|c b]; [discriminate|]. rewrite append_cons.
    cbn [has_slash] in Hs. apply orb_false_elim in Hs as [Hx Hs].
    destruct (ascii_dec x c) as [<-|Hne].
    + rewrite literal_match_cons_same in *.
      apply ends_with_slash_cons in Hb as [[_ ->]|[_ Hb]].
      * rewrite Ascii.eqb_refl in Hx. discriminate.
      * now apply IH.
    + now apply literal_match_cons_diff.
Qed.

Lemma literal_search_None_cons stem c d :
  literal_search stem (String c d) = None ->
  literal_match stem (String c d) = None /\ literal_search stem d = None.
Proof.
  cbn [literal_search]. destruct (literal_match stem (String c d));
    [discriminate|]. now split.
Qed.

Lemma literal_search_skip stem dir : forall s,
  has_slash stem = false ->
  dir = "" \/ ends_with_slash dir = true ->
  literal_search stem dir = None ->
  literal_search stem (dir ++ s) = literal_search stem s.
Proof.
  induction dir as [|c dir IH]; intros s Hs Hd Hr; [reflexivity|].
  destruct Hd as [Hd|Hd]; [discriminate|].
  apply literal_search_None_cons in Hr as [Hm Hr].
  rewrite append_cons. cbn [literal_search]. rewrite <- append_cons.
  rewrite (literal_match_extend stem (String c dir) s Hs Hd Hm).
  apply IH; [assumption| |assumption].
  apply ends_with_slash_cons in Hd as [[-> _]|[_ Hd]]; [now left|now right].
Qed.

Lemma literal_search_at_head stem r :
  r <> "" -> all_digits r = true -> literal_search stem (stem ++ r) = Some r.
Proof.
  intros Hne Hr.
  assert (H : literal_match stem (stem ++ r) = Some r).
  { rewrite literal_match_append, (take_digits_all r Hr).
    destruct r; [congruence|reflexivity]. }
  destruct (stem ++ r); cbn [literal_search]; now rewrite H.
Qed.

Lemma literal_search_digits stem d : forall g,
  literal_search stem d = Some g -> all_digits g = true.
Proof.
  induction d as [|c d IH]; intros g; cbn [literal_search].
  - destruct (literal_match stem "") eqn:E; [|discriminate].
    intros [= <-]. eapply literal_match_digits; eauto.
  - destruct (literal_match stem (String c d)) eqn:E.
    + intros [= <-]. eapply literal_match_digits; eauto.
    + apply IH.
Qed.

(** ** [increment_path]: the parts of a path *)

Lemma path_split s : path_parent s ++ path_name s = s.
Proof.
  induction s as [|c s IH]; [reflexivity|]. cbn [path_parent path_name].
  destruct (has_slash s).
  - now rewrite append_cons, IH.
  - destruct (Ascii.eqb_spec c "/") as [->|]; reflexivity.
Qed.

Lemma path_name_no_slash s : has_slash (path_name s) = false.
Proof.
  induction s as [|c s IH]; [reflexivity|]. cbn [path_name].
  destruct (has_slash s) eqn:E; [exact IH|].
  destruct (Ascii.eqb c "/") eqn:Ec; [exact E|].
  cbn [has_slash]. now rewrite Ec, E.
Qed.

Lemma path_parent_nonempty s :
  has_slash s = true -> path_parent s <> "".
Proof.
  destruct s as [|c s]; [discriminate|]. cbn [has_slash path_parent].
  destruct (has_slash s); [discriminate|]. rewrite orb_false_r.
  now intros ->.
Qed.

Lemma path_parent_shape s :
  path_parent s = "" \/ ends_with_slash (path_parent s) = true.
Proof.
  induction s as [|c s IH]; [now left|]. cbn [path_parent].
  destruct (has_slash s) eqn:E.
  - right. pose proof (path_parent_nonempty s E) as Hne.
    destruct IH as [IH|IH]; [congruence|].
    cbn [ends_with_slash]. destruct (path_parent s); [congruence|exact IH].
  - destruct (Ascii.eqb c "/"); [now right|now left].
Qed.

Local Close Scope string_scope.

(** ** [increment_path]: the number it appends *)

Local Open Scope string_scope.

Lemma append_assoc_s p q r : (p ++ q) ++ r = p ++ (q ++ r).
Proof.
  induction p as [|c p IH]; rewrite ?append_cons, ?append_nil;
    [reflexivity|now rewrite IH].
Qed.

Lemma append_same_l p s : p ++ s = p -> s = "".
Proof.
  induction p as [|c p IH]; rewrite ?append_cons, ?append_nil;
    [trivial|]. intros [= H]. now apply IH.
Qed.

Lemma path_exists_In fs p : path_exists fs p = true <-> In p fs.
Proof.
  unfold path_exists. rewrite existsb_exists. split.
  - intros (x & Hx & E). apply String.eqb_eq in E. now subst.
  - intros H. exists p. split; [assumption|apply String.eqb_refl].
Qed.

Lemma literal_glob_In fs path d :
  In d (literal_glob fs path) <->
  In d fs /\ String.prefix path d = true /\
  has_slash (substring (String.length path)
               (String.length d - String.length path) d) = false.
Proof.
  unfold literal_glob. rewrite filter_In, andb_true_iff, negb_true_iff.
  tauto.
Qed.

Lemma literal_glob_append fs path r :
  In (path ++ r) fs -> has_slash r = false ->
  In (path ++ r) (literal_glob fs path).
Proof.
  intros Hin Hr. apply literal_glob_In.
  now rewrite prefix_append, substring_append.
Qed.

Lemma sibling_numbers_In fs path d g :
  In d (literal_glob fs path) ->
  literal_search (path_stem path) d = Some g ->
  In (int_of_digits g) (sibling_numbers fs path).
Proof.
  intros Hd Hg. unfold sibling_numbers.
  apply list_elem_of_In, list_elem_of_omap. exists (Some g).
  split; [|reflexivity].
  apply list_elem_of_In, in_map_iff. now exists d.
Qed.

Lemma sibling_numbers_nonneg fs path x :
  In x (sibling_numbers fs path) -> 0 <= x.
Proof.
  unfold sibling_numbers. intros H.
  apply list_elem_of_In, list_elem_of_omap in H as (m & Hm & Hx).
  apply list_elem_of_In, in_map_iff in Hm as (d & Hd & _).
  destruct m as [g|]; [|discriminate]. injection Hx as <-.
  apply int_of_digits_nonneg. eapply literal_search_digits; eauto.
Qed.

Lemma fold_max_ge l : forall a,
  a <= fold_left Z.max l a /\ forall x, In x l -> x <= fold_left Z.max l a.
Proof.
  induction l as [|y l IH]; intros a; cbn [fold_left].
  - split; [lia|intros x []].
  - destruct (IH (Z.max a y)) as [H1 H2]. split; [lia|].
    intros x [<-|Hx]; [lia|now apply H2].
Qed.

Lemma max_list_ge l x : In x l -> x <= max_list l.
Proof.
  destruct l as [|y l]; [intros []|]. unfold max_list.
  destruct (fold_max_ge l y) as [H1 H2].
  intros [<-|Hx]; [exact H1|now apply H2].
Qed.

Lemma next_number_above fs path x :
  In x (sibling_numbers fs path) -> x < next_number fs path.
Proof.
  intros H. pose proof (max_list_ge _ _ H) as Hm. unfold next_number.
  destruct (sibling_numbers fs path); [destruct H|lia].
Qed.

Lemma next_number_pos fs path : 1 <= next_number fs path.
Proof.
  unfold next_number. destruct (sibling_numbers fs path) as [|x l] eqn:E;
    [lia|].
  assert (Hx : In x (sibling_numbers fs path)) by (rewrite E; now left).
  pose proof (sibling_numbers_nonneg _ _ _ Hx).
  pose proof (max_list_ge _ _ Hx). rewrite E in *. lia.
Qed.

Lemma literal_match_nonempty stem d g :
  literal_match stem d = Some g -> g <> "".
Proof.
  unfold literal_match. destruct (String.prefix stem d); [|discriminate].
  destruct (take_digits _); [discriminate|].
  intros [= <-]. discriminate.
Qed.

Lemma literal_search_nonempty stem d : forall g,
  literal_search stem d = Some g -> g <> "".
Proof.
  induction d as [|c d IH]; intros g; cbn [literal_search].
  - destruct (literal_match stem "") eqn:E; [|discriminate].
    intros [= <-]. eapply literal_match_nonempty; eauto.
  - destruct (literal_match stem (String c d)) eqn:E.
    + intros [= <-]. eapply literal_match_nonempty; eauto.
    + apply IH.
Qed.

Lemma rmap_Ok {A B} (f : A -> result B) (g : A -> B) (l : list A) :
  (forall x, In x l -> f x = Ok (g x)) -> rmap f l = Ok (map g l).
Proof.
  induction l as [|x l IH]; intros H; [reflexivity|].
  cbn [rmap map]. rewrite (H x) by now left. cbn [rbind].
  rewrite IH; [reflexivity|]. intros y Hy. apply H. now right.
Qed.

Lemma take_digits_length s :
  (String.length (take_digits s) <= String.length s)%nat.
Proof.
  induction s as [|c s IH]; [reflexivity|].
  cbn [take_digits]. destruct (is_digit c); cbn [String.length]; lia.
Qed.

Lemma substring_length n m s :
  (String.length (substring n m s) <= String.length s)%nat.
Proof.
  revert n m. induction s as [|c s IH]; intros [|n] [|m];
    cbn [substring String.length]; try lia.
  - specialize (IH 0%nat m). lia.
  - specialize (IH n 0%nat). lia.
  - specialize (IH n (S m)). lia.
Qed.

Lemma literal_match_length stem d g :
  literal_match stem d = Some g -> (String.length g <= String.length d)%nat.
Proof.
  unfold literal_match. destruct (String.prefix stem d); [|discriminate].
  set (r := substring _ _ d).
  pose proof (take_digits_length r) as H1.
  pose proof (substring_length (String.length stem)
                (String.length d - String.length stem) d) as H2.
  fold r in H2.
  destruct (take_digits r) eqn:E; [discriminate|].
  intros [= <-]. lia.
Qed.

Lemma literal_search_length stem d : forall g,
  literal_search stem d = Some g -> (String.length g <= String.length d)%nat.
Proof.
  induction d as [|c d IH]; intros g; cbn [literal_search].
  - destruct (literal_match stem "") eqn:E; [|discriminate].
    intros [= <-]. eapply literal_match_length; eauto.
  - destruct (literal_match stem (String c d)) eqn:E.
    + intros [= <-]. eapply literal_match_length; eauto.
    + intros H. apply IH in H. cbn [String.length]. lia.
Qed.

Lemma digits_fold_below s : forall acc,
  0 <= acc -> all_digits s = true ->
  fold_left (fun a c => 10 * a + (Z.of_nat (nat_of_ascii c) - 48))
    (list_ascii_of_string s) acc
  < (acc + 1) * 10 ^ Z.of_nat (String.length s).
Proof.
  induction s as [|c s IH]; intros acc Hacc H.
  - cbn. lia.
  - cbn [all_digits] in H. apply andb_prop in H as [Hc Hs].
    unfold is_digit in Hc. apply andb_prop in Hc as [Hc1 Hc2].
    apply Nat.leb_le in Hc1, Hc2.
    cbn [list_ascii_of_string fold_left String.length].
    rewrite Nat2Z.inj_succ, Z.pow_succ_r by lia.
    set (v := Z.of_nat (nat_of_ascii c) - 48).
    assert (Hv : 0 <= v <= 9) by (subst v; lia).
    pose proof (IH (10 * acc + v) ltac:(lia) Hs) as IH'.
    assert (Hp : 0 < 10 ^ Z.of_nat (String.length s))
      by (apply Z.pow_pos_nonneg; lia).
    nia.
Qed.

Lemma int_of_digits_below s :
  all_digits s = true -> int_of_digits s < 10 ^ Z.of_nat (String.length s).
Proof.
  intros H. pose proof (digits_fold_below s 0 ltac:(lia) H) as Hb.
  unfold int_of_digits. lia.
Qed.

Lemma uint_value_above d : forall acc,
  0 <= acc -> acc * 10 ^ Z.of_nat (Decimal.nb_digits d) <= uint_value d acc.
Proof.
  induction d; intros acc Hacc; cbn [Decimal.nb_digits uint_value];
    [cbn; lia|..];
    rewrite Nat2Z.inj_succ, Z.pow_succ_r by lia;
    (match goal with
     | |- _ <= uint_value _ ?a => pose proof (IHd a ltac:(lia)) as IH'
     end);
    (assert (Hp : 0 < 10 ^ Z.of_nat (Decimal.nb_digits d))
       by (apply Z.pow_pos_nonneg; lia));
    nia.
Qed.

Lemma string_of_uint_length d :
  String.length (NilEmpty.string_of_uint d) = Decimal.nb_digits d.
Proof.
  induction d; cbn [NilEmpty.string_of_uint String.length Decimal.nb_digits];
    congruence.
Qed.

Lemma str_of_int_length n k :
  0 <= n < 10 ^ Z.of_nat k -> (1 <= k)%nat ->
  (String.length (str_of_int n) <= k)%nat.
Proof.
  intros [Hn Hlt] Hk. unfold str_of_int.
  set (d := N.to_uint (Z.to_N n)).
  assert (Hnorm : Decimal.unorm d = d).
  { subst d. rewrite <- (DecimalN.Unsigned.of_to (Z.to_N n)) at 2.
    symmetry. apply DecimalN.Unsigned.to_of. }
  assert (Hval : uint_value d 0 = n).
  { rewrite <- uint_value_of_uint. subst d.
    rewrite DecimalN.Unsigned.of_to. now apply Z2N.id. }
  assert (Hhead : forall d' v, 1 <= v ->
            uint_value d' v = n -> (S (Decimal.nb_digits d') <= k)%nat).
  { intros d' v Hv E.
    pose proof (uint_value_above d' v ltac:(lia)) as Hlow.
    assert (Hp : 0 < 10 ^ Z.of_nat (Decimal.nb_digits d'))
      by (apply Z.pow_pos_nonneg; lia).
    assert (H10 : 10 ^ Z.of_nat (Decimal.nb_digits d') < 10 ^ Z.of_nat k)
      by nia.
    apply Z.pow_lt_mono_r_iff in H10; lia. }
  destruct d as [|d'|d'|d'|d'|d'|d'|d'|d'|d'|d'];
    cbn [NilZero.string_of_uint NilEmpty.string_of_uint String.length];
    rewrite ?string_of_uint_length.
  - cbn. lia.
  - rewrite DecimalFacts.unorm_D0 in Hnorm.
    assert (Hd' : d' = Decimal.Nil).
    { destruct d' as [|u|u|u|u|u|u|u|u|u|u]; [reflexivity|..]; exfalso;
        match type of Hnorm with
        | Decimal.unorm ?u0 = _ =>
            pose proof (DecimalFacts.nb_digits_unorm u0 ltac:(discriminate))
              as Hle
        end;
        rewrite Hnorm in Hle; cbn [Decimal.nb_digits] in Hle; lia. }
    subst d'. cbn. lia.
  - apply (Hhead d' 1); [lia|exact Hval].
  - apply (Hhead d' 2); [lia|exact Hval].
  - apply (Hhead d' 3); [lia|exact Hval].
  - apply (Hhead d' 4); [lia|exact Hval].
  - apply (Hhead d' 5); [lia|exact Hval].
  - apply (Hhead d' 6); [lia|exact Hval].
  - apply (Hhead d' 7); [lia|exact Hval].
  - apply (Hhead d' 8); [lia|exact Hval].
  - apply (Hhead d' 9); [lia|exact Hval].
Qed.

Lemma path_max_digits : (path_max <= int_max_str_digits)%nat.
Proof. apply Nat.leb_le. vm_compute. reflexivity. Qed.

Lemma plain_paths_In fs d :
  plain_paths fs = true -> In d fs ->
  string_forall is_ascii d = true /\ (String.length d < path_max)%nat.
Proof.
  unfold plain_paths. rewrite forallb_forall. intros H Hd.
  apply H, andb_prop in Hd as [Ha Hl]. now apply Nat.ltb_lt in Hl.
Qed.

Lemma plain_literal_glob fs path d :
  plain_paths fs = true -> In d (literal_glob fs path) ->
  string_forall is_ascii d = true /\ (String.length d < path_max)%nat.
Proof.
  intros H Hd. apply (plain_paths_In fs d H).
  now apply literal_glob_In in Hd.
Qed.

Lemma py_int_group lib stem d g :
  (String.length d < path_max)%nat ->
  literal_search stem d = Some g -> py_int lib (Some g) = Ok (int_of_digits g).
Proof.
  intros Hd H. unfold py_int.
  rewrite (literal_search_digits _ _ _ H).
  pose proof (literal_search_length _ _ _ H) as Hl.
  pose proof path_max_digits as Hm.
  destruct (String.length g <=? int_max_str_digits)%nat eqn:E;
    [|apply Nat.leb_gt in E; lia].
  destruct (String.eqb_spec g "") as [E'|_]; [|reflexivity].
  now apply literal_search_nonempty in H.
Qed.

Lemma search_literal_stem lib stem dirs :
  literal_stem stem = true ->
  (forall d, In d dirs -> string_forall is_ascii d = true) ->
  rmap (re_search lib stem) dirs
  = Ok (map (fun d => option_map Some (literal_search stem d)) dirs).
Proof.
  intros Hs Hd. apply rmap_Ok. intros d Hin. unfold re_search.
  now rewrite Hs, (Hd d Hin).
Qed.

Lemma int_of_groups lib stem dirs :
  (forall d, In d dirs -> (String.length d < path_max)%nat) ->
  rmap (py_int lib)
    (omap id (map (fun d => option_map Some (literal_search stem d)) dirs))
  = Ok (omap (fun m => option_map int_of_digits m)
          (map (literal_search stem) dirs)).
Proof.
  induction dirs as [|d dirs IH]; intros Hd; [reflexivity|].
  cbn [map]. destruct (literal_search stem d) as [g|] eqn:E.
  - cbn [option_map]. change (omap id (Some (Some g) :: ?l))
      with (Some g :: omap id l).
    cbn [rmap].
    rewrite (py_int_group lib stem d g (Hd d ltac:(now left)) E).
    cbn [rbind]. rewrite IH; [reflexivity|].
    intros d' Hd'. apply Hd. now right.
  - apply IH. intros d' Hd'. apply Hd. now right.
Qed.

Lemma sibling_numbers_below fs path x :
  plain_paths fs = true -> In x (sibling_numbers fs path) ->
  x < 10 ^ Z.of_nat (path_max - 1).
Proof.
  unfold sibling_numbers. intros Hp H.
  apply list_elem_of_In, list_elem_of_omap in H as (m & Hm & Hx).
  apply list_elem_of_In, in_map_iff in Hm as (d & Hd & Hin).
  destruct m as [g|]; [|discriminate]. injection Hx as <-.
  destruct (plain_literal_glob fs path d Hp Hin) as [_ Hlen].
  pose proof (literal_search_length _ _ _ Hd) as Hg.
  pose proof (int_of_digits_below g (literal_search_digits _ _ _ Hd)) as Hb.
  eapply Z.lt_le_trans; [exact Hb|].
  apply Z.pow_le_mono_r; lia.
Qed.

Lemma fold_max_below (B : Z) l : forall a,
  a < B -> (forall x, In x l -> x < B) -> fold_left Z.max l a < B.
Proof.
  induction l as [|y l IH]; intros a Ha H; [exact Ha|].
  cbn [fold_left]. apply IH.
  - pose proof (H y ltac:(now left)). lia.
  - intros x Hx. apply H. now right.
Qed.

Lemma next_number_below fs path :
  plain_paths fs = true -> next_number fs path < 10 ^ Z.of_nat path_max.
Proof.
  intros Hp. pose proof (sibling_numbers_below fs path) as Hb.
  assert (H10 : 10 * 10 ^ Z.of_nat (path_max - 1) = 10 ^ Z.of_nat path_max).
  { replace (Z.of_nat path_max) with (Z.succ (Z.of_nat (path_max - 1)))
      by (vm_compute; reflexivity).
    apply eq_sym, Z.pow_succ_r. lia. }
  assert (Hpos : 0 < 10 ^ Z.of_nat (path_max - 1))
    by (apply Z.pow_pos_nonneg; lia).
  unfold next_number. destruct (sibling_numbers fs path) as [|x l].
  - lia.
  - cbn [max_list].
    assert (fold_left Z.max l x < 10 ^ Z.of_nat (path_max - 1)).
    { apply fold_max_below.
      - apply Hb; [assumption|now left].
      - intros y Hy. apply Hb; [assumption|now right]. }
    lia.
Qed.

Lemma py_str_number lib fs path :
  plain_paths fs = true ->
  py_str lib (next_number fs path) = Ok (str_of_int (next_number fs path)).
Proof.
  intros Hp. unfold py_str.
  pose proof (next_number_pos fs path) as Hpos.
  pose proof (next_number_below fs path Hp) as Hb.
  assert (Hk : (1 <= path_max)%nat)
    by (apply Nat.leb_le; vm_compute; reflexivity).
  pose proof (str_of_int_length (next_number fs path) path_max
                ltac:(lia) Hk) as Hl.
  pose proof path_max_digits as Hm.
  destruct (Z.leb_spec 0 (next_number fs path)); [|lia].
  destruct (String.length (str_of_int (next_number fs path))
            <=? int_max_str_digits)%nat eqn:E; [reflexivity|].
  apply Nat.leb_gt in E. lia.
Qed.

Lemma increment_path_existing lib fs path :
  literal_path path = true -> plain_paths fs = true ->
  path_exists fs path = true ->
  increment_path lib fs path false
  = Ok (path ++ str_of_int (next_number fs path)).
Proof.
  intros Hl Ha H. apply andb_prop in Hl as [Hg Hs].
  unfold increment_path, glob_glob. rewrite H, Hg. cbn [andb orb negb].
  rewrite (search_literal_stem lib _ _ Hs
             (fun d Hd => proj1 (plain_literal_glob fs path d Ha Hd))).
  cbn [rbind].
  rewrite (int_of_groups lib _ _
             (fun d Hd => proj2 (plain_literal_glob fs path d Ha Hd))).
  cbn [rbind]. fold (sibling_numbers fs path).
  pose proof (py_str_number lib fs path Ha) as Hstr.
  unfold next_number in *.
  destruct (sibling_numbers fs path); now rewrite Hstr.
Qed.

Lemma numeric_suffix_inv path d k :
  numeric_suffix path d = Some k ->
  exists r, d = path ++ r /\ r <> "" /\ all_digits r = true /\
            k = int_of_digits r.
Proof.
  unfold numeric_suffix. destruct (String.prefix path d) eqn:Ep;
    [|discriminate].
  set (r := substring _ _ d).
  destruct (negb (r =? "") && (take_digits r =? r))%bool eqn:E;
    [|discriminate].
  intros [= <-]. apply andb_prop in E as [E1 E2].
  apply negb_true_iff, String.eqb_neq in E1. apply String.eqb_eq in E2.
  exists r. repeat split; try assumption.
  - now apply prefix_split.
  - now apply take_digits_fixed.
Qed.

Lemma numeric_sibling_below fs path d k :
  plain_parent path ->
  In d fs -> numeric_suffix path d = Some k ->
  k < next_number fs path.
Proof.
  intros [Hstem Hparent] Hin Hk.
  apply numeric_suffix_inv in Hk as (r & -> & Hne & Hr & ->).
  apply next_number_above.
  apply (sibling_numbers_In fs path (path ++ r) r).
  - apply literal_glob_append; [assumption|now apply all_digits_no_slash].
  - rewrite <- (path_split path) at 2. rewrite append_assoc_s.
    rewrite literal_search_skip.
    + rewrite Hstem. now apply literal_search_at_head.
    + rewrite Hstem. apply path_name_no_slash.
    + apply path_parent_shape.
    + exact Hparent.
Qed.

Local Close Scope string_scope.

(** X8: for a path that holds no wildcard of [glob], has a name, and has
    a stem free of the special characters of [re], in a file system of
    ASCII paths shorter than [path_max]: when the path exists and is not to be reused,
    [increment_path] returns the path followed by the decimal digits of a
    number that is at least 1 (2 when no sibling holds the stem followed
    by digits, one more than the largest such number otherwise): the
    result is never the path itself and stays in the same directory. *)
Theorem increment_path_appends_number (lib : PathLibs) (fs : filesystem)
    (path : string) :
  literal_path path = true ->
  plain_paths fs = true ->
  path_exists fs path = true ->
  increment_path lib fs path false
    = Ok (path ++ str_of_int (next_number fs path))%string /\
  1 <= next_number fs path /\
  (sibling_numbers fs path = [] -> next_number fs path = 2) /\
  all_digits (str_of_int (next_number fs path)) = true /\
  int_of_digits (str_of_int (next_number fs path)) = next_number fs path /\
  increment_path lib fs path false <> Ok path /\
  (forall p, increment_path lib fs path false = Ok p ->
     String.prefix path p = true).
Proof.
  intros Hl Ha H. pose proof (next_number_pos fs path) as Hpos.
  rewrite (increment_path_existing lib fs path Hl Ha H).
  repeat split.
  - exact Hpos.
  - unfold next_number. now intros ->.
  - apply all_digits_str.
  - apply int_of_str. lia.
  - intros [= E]. apply append_same_l in E.
    now apply (str_of_int_nonempty (next_number fs path)).
  - intros p [= <-]. apply prefix_append.
Qed.

Lemma increment_path_appends_number_witness :
  increment_path example_libs ["runs/exp"; "runs/exp9"; "runs/exp10"]%string
    "runs/exp" false = Ok "runs/exp11"%string.
Proof.
  refine (eq_trans (proj1 (increment_path_appends_number example_libs
    ["runs/exp"; "runs/exp9"; "runs/exp10"]%string "runs/exp" _ _ _)) _).
  - reflexivity.
  - reflexivity.
  - reflexivity.
  - vm_compute. reflexivity.
Defined.

(** X9: for such a path, if moreover its name carries no suffix and the
    stem is followed by digits nowhere in its parent part, the number
    [increment_path] appends is above the number of every existing
    sibling that is the path followed by digits. *)
Theorem increment_path_above_siblings (lib : PathLibs) (fs : filesystem)
    (path d : string) (k : Z) :
  literal_path path = true ->
  plain_paths fs = true ->
  plain_parent path ->
  path_exists fs path = true ->
  In d fs ->
  numeric_suffix path d = Some k ->
  increment_path lib fs path false
    = Ok (path ++ str_of_int (next_number fs path))%string /\
  k < next_number fs path.
Proof.
  intros Hl Ha Hp He Hd Hk. split.
  - now apply increment_path_existing.
  - eapply numeric_sibling_below; eauto.
Qed.

Lemma increment_path_above_siblings_witness :
  9 < next_number ["runs/exp"; "runs/exp9"; "runs/exp10"]%string "runs/exp".
Proof.
  refine (proj2 (increment_path_above_siblings example_libs
    ["runs/exp"; "runs/exp9"; "runs/exp10"]%string "runs/exp" "runs/exp9" 9
    _ _ _ _ _ _)).
  - reflexivity.
  - reflexivity.
  - split; reflexivity.
  - reflexivity.
  - cbn. tauto.
  - reflexivity.
Defined.

(** X10: for such a path, what [increment_path] returns without
    [exist_ok] is a path that does not exist yet. *)
Theorem increment_path_fresh (lib : PathLibs) (fs : filesystem)
    (path : string) :
  literal_path path = true ->
  plain_paths fs = true ->
  plain_parent path ->
  exists p, increment_path lib fs path false = Ok p /\
            path_exists fs p = false.
Proof.
  intros Hl Ha Hp. destruct (path_exists fs path) eqn:He.
  - rewrite (increment_path_existing lib fs path Hl Ha He).
    eexists. split; [reflexivity|].
    destruct (path_exists fs
                (path ++ str_of_int (next_number fs path))%string) eqn:Hres;
      [|reflexivity].
    apply path_exists_In in Hres.
    pose proof (next_number_pos fs path) as Hpos.
    assert (Hk : numeric_suffix path
                   (path ++ str_of_int (next_number fs path))%string
                 = Some (next_number fs path)).
    { unfold numeric_suffix. rewrite prefix_append, substring_append.
      rewrite (take_digits_all _ (all_digits_str _)), String.eqb_refl.
      destruct (String.eqb_spec (str_of_int (next_number fs path)) "")
        as [E|_]; [now apply str_of_int_nonempty in E|].
      cbn [negb andb]. now rewrite int_of_str by lia. }
    pose proof (numeric_sibling_below fs path _ _ Hp Hres Hk). lia.
  - exists path. split; [|exact He].
    apply increment_path_unchanged. now left.
Qed.

Lemma increment_path_fresh_witness :
  exists p,
    increment_path example_libs
      ["runs/exp"; "runs/exp2"; "runs/exp3_old"]%string "runs/exp" false
    = Ok p /\
    path_exists ["runs/exp"; "runs/exp2"; "runs/exp3_old"]%string p = false.
Proof.
  refine (increment_path_fresh example_libs _ "runs/exp" _ _ _).
  - reflexivity.
  - reflexivity.
  - split; reflexivity.
Defined.

(** ** A slot step stays within its slot *)

Lemma own_bind {A B} i (m : M A) (k : A -> M B) :
  own_events i m -> (forall a, own_events i (k a)) -> own_events i (bind m k).
Proof.
  unfold own_events. intros Hm Hk. rewrite bind_trace.
  apply Forall_app. split; [exact Hm|].
  destruct (outcome m); [apply Hk|constructor].
Qed.

Lemma own_silent {A} i (m : M A) : trace_of m = [] -> own_events i m.
Proof. unfold own_events. intros ->. constructor. Qed.

Lemma own_emit i ev :
  event_slot ev = None \/ event_slot ev = Some i -> own_events i (emit ev).
Proof.
  intros H. unfold own_events. cbn [emit trace_of fst].
  apply Forall_cons. split; [exact H|constructor].
Qed.

Section Isolation.

Variable W : Collaborators.
Variable args : Args.

Lemma own_flush_window i epoch dl idx s :
  own_events i (flush_window args epoch dl idx s).
Proof.
  unfold flush_window.
  apply own_bind; [apply own_silent, py_mod_trace|intros r].
  destruct (r =? 0); [|now apply own_silent].
  apply own_bind; [apply own_silent, py_truediv_trace|intros a1].
  apply own_bind; [apply own_silent, py_truediv_trace|intros a2].
  apply own_bind; [apply own_silent, py_truediv_trace|intros a3].
  apply own_bind; [apply own_emit; now left|intros _].
  apply own_bind; [apply own_emit; now left|intros _].
  now apply own_silent.
Qed.

Lemma own_train_loop i epoch dl bs : forall idx s,
  own_events i (train_loop W args epoch i dl idx bs s).
Proof.
  induction bs as [|b rest IH]; intros idx s; [now apply own_silent|].
  cbn [train_loop].
  apply own_bind; [apply own_emit; now right|intros _]. cbv zeta.
  apply own_bind; [apply own_emit; now right|intros _].
  apply own_bind; [apply own_flush_window|intros s2]. apply IH.
Qed.

Lemma own_validate i epoch vl : own_events i (validate W args epoch i vl).
Proof.
  unfold own_events. rewrite validate_eq. cbn [trace_of fst].
  unfold val_forwards. apply List.Forall_forall. intros ev Hev.
  apply in_map_iff in Hev as (idx & <- & _). now right.
Qed.

Lemma own_train_epoch i epoch dl :
  own_events i (train_epoch W args epoch i dl).
Proof.
  unfold train_epoch. apply own_bind; [apply own_train_loop|intros s].
  apply own_silent, train_epoch_tail_trace.
Qed.

Lemma own_checkpoint i epoch f1 best scores :
  own_events i (checkpoint epoch i f1 best scores).
Proof.
  unfold checkpoint. apply own_bind.
  - destruct (Float.ltb best f1); [|now apply own_silent].
    apply own_bind; [apply own_emit; now right|intros _].
    apply own_silent, setitem_trace.
  - intros s. apply own_bind; [apply own_emit; now right|intros _].
    now apply own_silent.
Qed.

Lemma own_slot_step tls vls epoch i st :
  own_events i (slot_step W args tls vls epoch i st).
Proof.
  unfold slot_step.
  apply own_bind; [apply own_silent, getitem_trace|intros a].
  apply own_bind; [apply own_silent, getitem_trace|intros a0].
  apply own_bind; [apply own_silent, getitem_trace|intros a1].
  apply own_bind; [apply own_emit; now right|intros _].
  apply own_bind; [apply own_silent, getitem_trace|intros trl].
  apply own_bind; [apply own_train_epoch|intros trm].
  apply own_bind; [apply own_emit; now right|intros _].
  apply own_bind; [apply own_silent, getitem_trace|intros vl].
  apply own_bind; [apply own_validate|intros v].
  apply own_bind; [apply own_silent, setitem_trace|intros accs].
  apply own_bind; [apply own_silent, setitem_trace|intros losses].
  apply own_bind; [apply own_checkpoint|intros scores].
  apply own_bind; [apply own_emit; now left|intros _].
  apply own_bind; [apply own_emit; now left|intros _].
  apply own_bind; [apply own_emit; now left|intros _].
  apply own_bind; [apply own_emit; now left|intros _].
  apply own_bind; [apply own_emit; now right|intros _].
  now apply own_silent.
Qed.

Lemma slot_step_others tls vls epoch i st tr st' stop j :
  slot_step W args tls vls epoch i st = (tr, Ok (st', stop)) ->
  j <> i ->
  best_val_accs st' !! j = best_val_accs st !! j /\
  best_val_losses st' !! j = best_val_losses st !! j /\
  best_f1_scores st' !! j = best_f1_scores st !! j.
Proof.
  unfold slot_step. intros H Hj.
  inv_bind H a Ha H. inv_bind H a0 Hl H. inv_bind H a1 Hf H.
  inv_bind H u0 Hu0 H. inv_bind H trl Htrl H. inv_bind H trm Htrm H.
  inv_bind H u1 Hu1 H. inv_bind H vl Hvl H. inv_bind H a6 Hv H.
  inv_bind H accs Haccs H. apply setitem_Ok in Haccs as (_ & -> & _).
  inv_bind H losses Hlosses H. apply setitem_Ok in Hlosses as (_ & -> & _).
  inv_bind H a9 Hck H. apply checkpoint_Ok in Hck.
  inv_bind H u2 Hu2 H. inv_bind H u3 Hu3 H. inv_bind H u4 Hu4 H.
  inv_bind H u5 Hu5 H. inv_bind H u6 Hu6 H.
  injection H as _ <- <-.
  cbn [best_val_accs best_val_losses best_f1_scores].
  rewrite !list_lookup_insert_ne by congruence. repeat split.
  subst a9. destruct (Float.ltb a1 (val_f1 a6)); [|reflexivity].
  apply list_lookup_insert_ne. congruence.
Qed.

End Isolation.

(** X11: a slot step stays within its slot: every model call, optimizer
    step, checkpoint write and early-stop call it makes carries its own
    slot index (the logger calls carry none), and when it returns, the
    best accuracy, best loss and best F1 of every other slot are what they
    were. *)
Theorem slot_step_isolated (W : Collaborators) (args : Args)
    (tls vls : list DataLoader) (epoch i : nat) (st : best_state) :
  own_events i (slot_step W args tls vls epoch i st) /\
  forall tr st' stop j,
    slot_step W args tls vls epoch i st = (tr, Ok (st', stop)) ->
    j <> i ->
    best_val_accs st' !! j = best_val_accs st !! j /\
    best_val_losses st' !! j = best_val_losses st !! j /\
    best_f1_scores st' !! j = best_f1_scores st !! j.
Proof.
  split; [apply own_slot_step|].
  intros tr st' stop j. apply slot_step_others.
Qed.

Lemma slot_step_isolated_witness :
  let m := slot_step (example_world never_stop) example_args
             (loaders_of (fun _ => 40%nat) 16 (seq 0 5))
             (loaders_of (fun _ => 40%nat) 16 (seq 0 5))
             0 3 best_state_init in
  best_f1_scores (fst (match outcome m with
                       | Ok r => r
                       | Raise _ => (best_state_init, false)
                       end)) !! 1%nat = Some Float.zero.
Proof.
  cbv zeta.
  refine (eq_trans (proj2 (proj2 (proj2 (slot_step_isolated
    (example_world never_stop) example_args
    (loaders_of (fun _ => 40%nat) 16 (seq 0 5))
    (loaders_of (fun _ => 40%nat) 16 (seq 0 5)) 0 3 best_state_init)
    _ _ _ 1%nat _ _))) _).
  - vm_compute. reflexivity.
  - discriminate.
  - reflexivity.
Defined.

(** ** The correct counts stay within the denominator *)

Lemma count_matches_bounds ps : forall ls,
  0 <= count_matches ps ls <= Z.of_nat (length ls).
Proof.
  induction ps as [|p ps IH]; intros [|l ls]; cbn [count_matches length];
    try lia.
  specialize (IH ls). destruct (p =? l); lia.
Qed.

Lemma fold_add_bounds (c : Z) (l : list Z) : forall acc,
  Forall (fun x => 0 <= x <= c) l ->
  acc <= fold_left Z.add l acc <= acc + c * Z.of_nat (length l).
Proof.
  induction l as [|x l IH]; intros acc H; cbn [fold_left length]; [lia|].
  apply Forall_cons in H as [Hx Hl]. specialize (IH (acc + x) Hl). lia.
Qed.

(** X12: when the model returns one label per sample of a batch, the
    correct count of a training epoch lies between 0 and
    [batch_size * len(loader)], the denominator of the epoch accuracy. *)
Theorem train_matches_bounded (W : Collaborators) (args : Args)
    (epoch i size : nat) :
  0 < batch_size args ->
  (forall idx b,
     length (labels (forward_train W epoch i idx b)) = length b) ->
  let dl := drop_last_loader size (batch_size args) in
  0 <= train_matches W epoch i dl
    <= batch_size args * Z.of_nat (loader_len dl).
Proof.
  intros Hb Hlab dl.
  destruct (drop_last_batches size (batch_size args) Hb) as (Hlen & _ & Hf).
  fold dl in Hlen, Hf. unfold train_matches, sum_Z.
  pose proof (fold_add_bounds (batch_size args)
    (imap (fun idx b =>
             let out := forward_train W epoch i idx b in
             count_matches (preds out) (labels out)) (batches dl)) 0) as H.
  rewrite length_imap, Hlen in H. apply H.
  apply Forall_lookup. intros k x Hk.
  rewrite list_lookup_imap in Hk.
  destruct (batches dl !! k) as [b|] eqn:Eb; [|discriminate].
  injection Hk as <-. cbv zeta.
  pose proof (count_matches_bounds (preds (forward_train W epoch i k b))
                (labels (forward_train W epoch i k b))) as Hc.
  rewrite Hlab in Hc.
  rewrite (proj1 (Forall_lookup _ _) Hf _ _ Eb) in Hc. lia.
Qed.

Lemma train_matches_bounded_witness :
  0 <= train_matches (example_world never_stop) 0 0 (drop_last_loader 40 16)
    <= 16 * 2.
Proof.
  refine (train_matches_bounded (example_world never_stop) example_args
            0 0 40 _ _).
  - reflexivity.
  - intros idx b. cbn. now rewrite length_map.
Defined.

(** ** The default arguments *)

(** X13: with the defaults of the argument parser (validation batches of
    32, figure of 16) no run fails the assertion of [grid_image], whatever
    the data and the models are, and the figure is drawn from shuffled
    choices. *)
Theorem default_args_assertion_free (W : Collaborators) :
  outcome (train W default_args) <> Raise AssertionError /\
  grid_shuffle default_args = true.
Proof.
  split; [|reflexivity].
  apply no_assert_run. cbn. lia.
Qed.
